(** * Secret rotation state machine (lesson-13/infrastructure/secret_rotation_lambda.py)

    A shallow embedding of the rotation Lambda: the four step functions, the
    handler that dispatches to them, the helper [get_secret_dict] and the
    password generator, over an explicit model of the three things the Python
    code talks to: the secret store (boto3 [secretsmanager] client), the
    consumer (the [rds] client and [psycopg2]) and the random source behind
    [random.choice].

    Python statements become computations in a state-and-exception monad over
    a [world]; a raised exception keeps the world reached so far, as in
    Python.  Calls to [logger] have no effect on any of the modelled state and
    are left out. *)

From stdpp Require Import gmap strings list fin_maps.
From Stdlib Require Import ZArith Ascii Lia.

(** ** Data model *)

(** The values found in a credential record once [json.loads] has parsed it. *)
Inductive json_value :=
| JStr (s : string)
| JNum (n : Z).

(** A parsed credential record (host, port, dbname, username, password, ...):
    the Python dict that [json.loads] returns.  The store keeps the record
    itself: [json.dumps] followed by [json.loads] is the identity on it. *)
Abbreviation secret_dict := (gmap string json_value).

(** One version of a secret: its payload and its staging labels. *)
Record secret_version := {
  SecretString : secret_dict;
  VersionStages : list string
}.

(** The versions of one secret, keyed by version id (the token that created
    them), in insertion order as a Python dict keeps them. *)
Abbreviation versions := (list (string * secret_version)).

Definition AWSCURRENT : string := "AWSCURRENT".
Definition AWSPENDING : string := "AWSPENDING".

(** Exceptions the code and its collaborators raise. *)
Inductive exn :=
| ResourceNotFoundException
| ResourceExistsException
| InvalidParameterException
| ValueError (msg : string)
| KeyError (key : string)
| TypeError
| IndexError
| RecursionError
| OperationalError
| ClientError
| Exception_ (msg : string).

Inductive outcome (A : Type) :=
| Ok (a : A)
| Raise (e : exn).
Arguments Ok {A} a.
Arguments Raise {A} e.

(** What the consumer side observes: the administrative password change and
    the life of the probe connection. *)
Inductive effect :=
| ModifyDbInstance (password : json_value)
| Connect
| CursorOpen
| Execute
| FetchOne
| CursorClose
| ConnClose.

Record world := {
  secrets : gmap string versions;       (* the secret store, by SecretId *)
  entropy : nat -> nat;                 (* the draws behind random.choice *)
  drawn : nat;                          (* how many draws were consumed *)
  recursion_limit : nat;                (* frames the interpreter still allows *)
  journal : list effect                 (* consumer effects, oldest first *)
}.

Definition set_secrets (s : gmap string versions) (w : world) : world :=
  {| secrets := s; entropy := entropy w; drawn := drawn w;
     recursion_limit := recursion_limit w; journal := journal w |}.

Definition set_drawn (n : nat) (w : world) : world :=
  {| secrets := secrets w; entropy := entropy w; drawn := n;
     recursion_limit := recursion_limit w; journal := journal w |}.

Definition record (e : effect) (w : world) : world :=
  {| secrets := secrets w; entropy := entropy w; drawn := drawn w;
     recursion_limit := recursion_limit w; journal := journal w ++ [e] |}.

(** ** The monad of Python statements *)

Definition M (A : Type) : Type := world -> outcome A * world.

Definition ret {A} (a : A) : M A := fun w => (Ok a, w).

Definition raise {A} (e : exn) : M A := fun w => (Raise e, w).

Definition bind {A B} (m : M A) (k : A -> M B) : M B :=
  fun w => match m w with
           | (Ok a, w') => k a w'
           | (Raise e, w') => (Raise e, w')
           end.

(** [try: m except E: h], for the exceptions [E] that [catches] accepts. *)
Definition try_except {A} (m : M A) (catches : exn -> bool) (h : exn -> M A) : M A :=
  fun w => match m w with
           | (Ok a, w') => (Ok a, w')
           | (Raise e, w') => if catches e then h e w' else (Raise e, w')
           end.

Definition emit (e : effect) : M unit := fun w => (Ok tt, record e w).

Notation "x <- m ;; k" := (bind m (fun x => k))
  (at level 100, m at next level, right associativity).
Notation "m ;;; k" := (bind m (fun _ => k))
  (at level 100, right associativity).

(** ** Password policy: [generate_password] *)

Definition ascii_lowercase : string := "abcdefghijklmnopqrstuvwxyz".
Definition ascii_uppercase : string := "ABCDEFGHIJKLMNOPQRSTUVWXYZ".
Definition ascii_letters : string := ascii_lowercase +:+ ascii_uppercase.
Definition digits : string := "0123456789".
Definition symbols : string := "!@#$%^&*".

(** [string.ascii_letters + string.digits + "!@#$%^&*"] *)
Definition characters : string := ascii_letters +:+ digits +:+ symbols.

(** [str.islower], [str.isupper] and [str.isdigit] on one ASCII character. *)
Definition islower (c : ascii) : bool :=
  (97 <=? nat_of_ascii c)%nat && (nat_of_ascii c <=? 122)%nat.
Definition isupper (c : ascii) : bool :=
  (65 <=? nat_of_ascii c)%nat && (nat_of_ascii c <=? 90)%nat.
Definition isdigit (c : ascii) : bool :=
  (48 <=? nat_of_ascii c)%nat && (nat_of_ascii c <=? 57)%nat.

(** [c in s] for a one-character [c]. *)
Fixpoint char_in (c : ascii) (s : string) : bool :=
  match s with
  | EmptyString => false
  | String d s' => Ascii.eqb c d || char_in c s'
  end.

(** [any(p(c) for c in s)] *)
Fixpoint any (p : ascii -> bool) (s : string) : bool :=
  match s with
  | EmptyString => false
  | String c s' => p c || any p s'
  end.

(** [random.choice(seq)]: [seq[randbelow(len(seq))]], the random index being
    the next draw of the world's entropy reduced below [len(seq)]. *)
Definition random_choice (seq : string) : M ascii :=
  fun w =>
    let i := (entropy w (drawn w) mod String.length seq)%nat in
    (Ok (match String.get i seq with Some c => c | None => zero end),
     set_drawn (S (drawn w)) w).

(** [''.join(random.choice(characters) for _ in range(length))] *)
Fixpoint sample (length : nat) : M string :=
  match length with
  | O => ret EmptyString
  | S n => c <- random_choice characters ;;
           rest <- sample n ;;
           ret (String c rest)
  end.

(** The complexity requirement tested by the [if] of [generate_password]. *)
Definition complexity (password : string) : bool :=
  any islower password && any isupper password &&
  any isdigit password && any (fun c => char_in c symbols) password.

(** [generate_password(length)] at a call depth that leaves [depth] frames:
    one sample per frame, the [else] branch recursing one frame deeper, the
    interpreter raising [RecursionError] when no frame is left. *)
Fixpoint generate_password_at (depth : nat) (length : nat) : M string :=
  match depth with
  | O => raise RecursionError
  | S d => password <- sample length ;;
           if complexity password then ret password
           else generate_password_at d length
  end.

Definition generate_password (length : nat) : M string :=
  fun w => generate_password_at (recursion_limit w) length w.

(** ** The secret store

    The [service] argument of every step function is the boto3 Secrets
    Manager client, an external service.  Its four operations are modelled
    below on the [secrets] component of the world, with the keyword arguments
    the code passes. *)

(** [d[key]] on the ordered dict of versions. *)
Fixpoint lookup_version (key : string) (vs : versions) : option secret_version :=
  match vs with
  | [] => None
  | (id, v) :: rest => if bool_decide (id = key) then Some v else lookup_version key rest
  end.

Definition has_stage (stage : string) (v : secret_version) : bool :=
  bool_decide (stage ∈ VersionStages v).

(** The first version that carries [stage]. *)
Fixpoint staged_version (stage : string) (vs : versions) : option secret_version :=
  match vs with
  | [] => None
  | (_, v) :: rest => if has_stage stage v then Some v else staged_version stage rest
  end.

(** Modelled from the spec: the store's [getVersion(secretId, stage)] and
    [getVersionByToken(secretId, token)], reached through boto3's
    [get_secret_value(SecretId, VersionId, VersionStage)].  The version is
    looked up by id when [VersionId] is given, by staging label otherwise; a
    version that is missing, or that does not carry [VersionStage], and an
    unknown secret, raise [ResourceNotFoundException].  The result is the
    response's ['SecretString']. *)
Definition get_secret_value (SecretId : string) (VersionId : option string)
    (VersionStage : string) : M secret_dict :=
  fun w =>
    match secrets w !! SecretId with
    | None => (Raise ResourceNotFoundException, w)
    | Some vs =>
        let found := match VersionId with
                     | Some id => match lookup_version id vs with
                                  | Some v => if has_stage VersionStage v then Some v else None
                                  | None => None
                                  end
                     | None => staged_version VersionStage vs
                     end in
        match found with
        | Some v => (Ok (SecretString v), w)
        | None => (Raise ResourceNotFoundException, w)
        end
    end.

(** Modelled from the spec: the staging metadata of a secret, boto3's
    [describe_secret(SecretId)].  The result is the response's
    ['VersionIdsToStages']: a dict from version id to its list of labels. *)
Definition describe_secret (SecretId : string) : M (list (string * list string)) :=
  fun w =>
    match secrets w !! SecretId with
    | None => (Raise ResourceNotFoundException, w)
    | Some vs => (Ok ((fun p => (p.1, VersionStages p.2)) <$> vs), w)
    end.

Definition remove_stages (stages : list string) (v : secret_version) : secret_version :=
  {| SecretString := SecretString v;
     VersionStages := filter (fun s => s ∉ stages) (VersionStages v) |}.

Definition add_stage (stage : string) (v : secret_version) : secret_version :=
  {| SecretString := SecretString v;
     VersionStages := if has_stage stage v then VersionStages v
                      else VersionStages v ++ [stage] |}.

(** The versions after a new one is put: the labels it receives are taken
    from the versions that carried them, and it is appended. *)
Definition put_versions (token : string) (payload : secret_dict) (stages : list string)
    (vs : versions) : versions :=
  ((fun p => (p.1, remove_stages stages p.2)) <$> vs)
  ++ [(token, {| SecretString := payload; VersionStages := stages |})].

(** Modelled from the spec: the store's
    [putVersion(secretId, token, payload, stages)], boto3's
    [put_secret_value(SecretId, ClientRequestToken, SecretString,
    VersionStages)].  It is a conditional write (section 5 of the spec): it
    succeeds only when no version has this token yet and raises
    [ResourceExistsException] otherwise.  The store owns label uniqueness
    (section 4.3): the labels given to the new version are taken from the
    versions that carried them. *)
Definition put_secret_value (SecretId ClientRequestToken : string)
    (payload : secret_dict) (stages : list string) : M unit :=
  fun w =>
    match secrets w !! SecretId with
    | None => (Raise ResourceNotFoundException, w)
    | Some vs =>
        match lookup_version ClientRequestToken vs with
        | Some _ => (Raise ResourceExistsException, w)
        | None =>
            (Ok tt,
             set_secrets (<[SecretId := put_versions ClientRequestToken payload stages vs]>
                            (secrets w)) w)
        end
    end.

(** After the move, would some version other than the target still carry the
    label? *)
Definition label_left_behind (stage target : string) (remove_from : option string)
    (vs : versions) : bool :=
  existsb (fun p => has_stage stage p.2 && negb (bool_decide (p.1 = target))
                    && negb (bool_decide (Some p.1 = remove_from))) vs.

Definition move_stage (stage target : string) (remove_from : option string)
    (vs : versions) : versions :=
  (fun p => if bool_decide (p.1 = target) then (p.1, add_stage stage p.2)
            else if bool_decide (Some p.1 = remove_from)
                 then (p.1, remove_stages [stage] p.2)
                 else p) <$> vs.

(** Modelled from the spec: the store's [moveStage(secretId, stage, toToken)],
    one atomic metadata update, reached through boto3's
    [update_secret_version_stage]; the code names the target version with the
    keyword [ClientRequestToken] (the spec's [toToken]) and the version that
    loses the label with [RemoveFromVersionId] ([None] when its scan found
    none).  The target must
    exist ([ResourceNotFoundException] otherwise, the spec's
    [VersionNotFound]); the version named by [RemoveFromVersionId] must exist
    and carry the label, and no third version may be left carrying it
    ([InvalidParameterException] otherwise): the store owns label uniqueness.
    Versions are relabelled in place, none is deleted. *)
Definition update_secret_version_stage (SecretId VersionStage ClientRequestToken : string)
    (RemoveFromVersionId : option string) : M unit :=
  fun w =>
    match secrets w !! SecretId with
    | None => (Raise ResourceNotFoundException, w)
    | Some vs =>
        match lookup_version ClientRequestToken vs with
        | None => (Raise ResourceNotFoundException, w)
        | Some _ =>
            let removable :=
              match RemoveFromVersionId with
              | None => true
              | Some r => match lookup_version r vs with
                          | Some v => has_stage VersionStage v
                          | None => false
                          end
              end in
            if removable
               && negb (label_left_behind VersionStage ClientRequestToken
                                          RemoveFromVersionId vs)
            then (Ok tt,
                  set_secrets (<[SecretId := move_stage VersionStage ClientRequestToken
                                                        RemoveFromVersionId vs]>
                                 (secrets w)) w)
            else (Raise InvalidParameterException, w)
        end
    end.

(** ** The consumer *)

(** How the database answers one probe: whether [psycopg2.connect] and
    [cursor.execute] succeed, and the row [cursor.fetchone()] yields ([None]
    when the query produced no row).  [conn.cursor()], [fetchone] and the two
    [close] calls are taken to succeed. *)
Record probe_behaviour := {
  connect_ok : bool;
  execute_ok : bool;
  fetched_row : option (list Z)
}.

(** ** The rotation steps *)

(** [get_secret_dict(service, arn, stage, token=None)].  [if token:] is false
    for [None] and for the empty string: only a non-empty token is passed on
    as [VersionId]. *)
Definition get_secret_dict (arn stage : string) (token : option string) : M secret_dict :=
  let VersionId := match token with
                   | Some t => if bool_decide (t = "") then None else Some t
                   | None => None
                   end in
  get_secret_value arn VersionId stage.

Definition is_ResourceNotFound (e : exn) : bool :=
  match e with ResourceNotFoundException => true | _ => false end.

(** [create_secret(service, arn, token)] *)
Definition create_secret (arn token : string) : M unit :=
  try_except
    (get_secret_value arn (Some token) AWSPENDING ;;; ret tt)
    is_ResourceNotFound
    (fun _ =>
       current_secret <- get_secret_dict arn AWSCURRENT None ;;
       password <- generate_password 32 ;;
       let current_secret := <["password" := JStr password]> current_secret in
       put_secret_value arn token current_secret [AWSPENDING]).

(** [d[key]] on a credential record. *)
Definition getitem (d : secret_dict) (key : string) : M json_value :=
  match d !! key with
  | Some v => ret v
  | None => raise (KeyError key)
  end.

(** [set_secret(service, rds_client, arn, token)]; [rds_accepts] tells whether
    [rds_client.modify_db_instance] succeeds.  The [except] clause logs and
    re-raises. *)
Definition set_secret (rds_accepts : bool) (arn token : string) : M unit :=
  current_secret <- get_secret_dict arn AWSCURRENT None ;;
  pending_secret <- get_secret_dict arn AWSPENDING (Some token) ;;
  password <- getitem pending_secret "password" ;;
  if rds_accepts then emit (ModifyDbInstance password)
  else raise ClientError.

(** [result[0] == 1] on what [fetchone] returned. *)
Definition check_sentinel (result : option (list Z)) : M unit :=
  match result with
  | None => raise TypeError
  | Some [] => raise IndexError
  | Some (x :: _) => if (x =? 1)%Z then ret tt
                     else raise (Exception_ "Database test query failed")
  end.

(** [test_secret(service, arn, token)]; [db] is how the database answers.
    The [except Exception] clause logs and re-raises, so the body of the
    [try] is the whole behaviour. *)
Definition test_secret (db : probe_behaviour) (arn token : string) : M unit :=
  pending_secret <- get_secret_dict arn AWSPENDING (Some token) ;;
  host <- getitem pending_secret "host" ;;
  port <- getitem pending_secret "port" ;;
  database <- getitem pending_secret "dbname" ;;
  user <- getitem pending_secret "username" ;;
  password <- getitem pending_secret "password" ;;
  (if connect_ok db then emit Connect else raise OperationalError) ;;;
  emit CursorOpen ;;;
  (if execute_ok db then emit Execute else raise OperationalError) ;;;
  emit FetchOne ;;;
  emit CursorClose ;;;
  emit ConnClose ;;;
  check_sentinel (fetched_row db).

(** The [for] loop of [finish_secret] over the [VersionIdsToStages] dict. *)
Inductive scan_result :=
| AlreadyCurrent                       (* the early [return] *)
| Scanned (current_version : option string).

Fixpoint scan_versions (token : string) (d : list (string * list string)) : scan_result :=
  match d with
  | [] => Scanned None
  | (version, stages) :: rest =>
      if bool_decide (AWSCURRENT ∈ stages)
      then if bool_decide (version = token) then AlreadyCurrent
           else Scanned (Some version)
      else scan_versions token rest
  end.

(** [finish_secret(service, arn, token)] *)
Definition finish_secret (arn token : string) : M unit :=
  metadata <- describe_secret arn ;;
  match scan_versions token metadata with
  | AlreadyCurrent => ret tt
  | Scanned current_version =>
      update_secret_version_stage arn AWSCURRENT token current_version
  end.

(** ** The handler *)

(** [event['Step1']], taken to hold its three keys. *)
Record rotation_event := {
  SecretId : string;
  ClientRequestToken : string;
  Step : string
}.

(** [key in d] on a dict: membership among the keys. *)
Definition dict_contains {V} (key : string) (d : list (string * V)) : bool :=
  bool_decide (key ∈ d.*1).

(** [lambda_handler(event, context)].  [rds_accepts] and [db] are how the
    consumer answers during this invocation. *)
Definition lambda_handler (rds_accepts : bool) (db : probe_behaviour)
    (event : rotation_event) : M unit :=
  let arn := SecretId event in
  let token := ClientRequestToken event in
  let step := Step event in
  versions <- describe_secret arn ;;
  if negb (dict_contains "AWSCURRENT" versions)
  then raise (ValueError ("Secret " +:+ arn +:+ " has no AWSCURRENT version"))
  else if bool_decide (step = "createSecret") then create_secret arn token
  else if bool_decide (step = "setSecret") then set_secret rds_accepts arn token
  else if bool_decide (step = "testSecret") then test_secret db arn token
  else if bool_decide (step = "finishSecret") then finish_secret arn token
  else raise (ValueError ("Invalid step parameter " +:+ step +:+ " for secret " +:+ arn)).

(** ** The orchestrator

    The orchestrator invokes one step at a time and re-invokes after a
    failure: a sequence of calls runs every call, whatever the outcome of the
    ones before it. *)

Inductive call :=
| Invoke (rds_accepts : bool) (db : probe_behaviour) (event : rotation_event)
| CreateStep (arn token : string)
| SetStep (rds_accepts : bool) (arn token : string)
| TestStep (db : probe_behaviour) (arn token : string)
| FinishStep (arn token : string).

Definition run_call (c : call) : M unit :=
  match c with
  | Invoke rds_accepts db event => lambda_handler rds_accepts db event
  | CreateStep arn token => create_secret arn token
  | SetStep rds_accepts arn token => set_secret rds_accepts arn token
  | TestStep db arn token => test_secret db arn token
  | FinishStep arn token => finish_secret arn token
  end.

Fixpoint run_calls (cs : list call) (w : world) : world :=
  match cs with
  | [] => w
  | c :: rest => run_calls rest (run_call c w).2
  end.

(** ** Properties of a store state *)

(** The ids of the versions that carry [stage], in dict order. *)
Definition carriers (stage : string) (vs : versions) : list string :=
  (filter (fun p => has_stage stage p.2) vs).*1.

Definition at_most_one (stage : string) (vs : versions) : Prop :=
  length (carriers stage vs) ≤ 1.

(** The invariant of the claims: for every secret, at most one version
    carries [AWSCURRENT] and at most one carries [AWSPENDING]. *)
Definition label_unique (s : gmap string versions) : Prop :=
  ∀ arn vs, s !! arn = Some vs →
    at_most_one AWSCURRENT vs ∧ at_most_one AWSPENDING vs.

(** A well-formed store: version ids are the keys of a dict, hence distinct,
    and labels are unique. *)
Definition wf_store (s : gmap string versions) : Prop :=
  ∀ arn vs, s !! arn = Some vs →
    NoDup vs.*1 ∧ at_most_one AWSCURRENT vs ∧ at_most_one AWSPENDING vs.

(** A computation keeps a property of the store, whatever its outcome. *)
Definition stable (I : gmap string versions → Prop) {A} (m : M A) : Prop :=
  ∀ w, I (secrets w) → I (secrets (m w).2).

(** Probe connections left open by a journal: opened minus closed. *)
Definition open_connections (j : list effect) : Z :=
  fold_left (fun n e => match e with
                        | Connect => n + 1
                        | ConnClose => n - 1
                        | _ => n
                        end%Z) j 0%Z.

(** The [k]-th candidate that [generate_password] would draw from [w]. *)
Definition candidate (length k : nat) (w : world) : string :=
  match sample length (set_drawn (drawn w + k * length) w) with
  | (Ok s, _) => s
  | (Raise _, _) => EmptyString
  end.

(** How many candidates a run of [generate_password] drew. *)
Definition attempts (length : nat) (w w' : world) : nat :=
  (drawn w' - drawn w) / length.

(** The four-class policy on a returned password of the default length. *)
Definition meets_policy (password : string) : Prop :=
  String.length password = 32 ∧
  any islower password = true ∧ any isupper password = true ∧
  any isdigit password = true ∧ any (fun c => char_in c symbols) password = true.

(** A source that always draws index 0 yields the candidate "aaa...a". *)
Definition stuck_world (limit : nat) : world :=
  {| secrets := ∅; entropy := fun _ => 0; drawn := 0;
     recursion_limit := limit; journal := [] |}.

(** A source whose first candidate is "aaa...a" and whose later draws walk
    through the alphabet in steps of three. *)
Definition retry_world : world :=
  {| secrets := ∅; entropy := fun i => if i <? 32 then 0 else i * 3; drawn := 0;
     recursion_limit := 5; journal := [] |}.

(** ** The scenario of the spec: secret S1 and rotation attempt tok1 *)

Definition app_credentials : secret_dict :=
  <["host" := JStr "db.internal"]> (<["port" := JNum 5432]> (<["dbname" := JStr "app"]>
  (<["username" := JStr "app"]> (<["password" := JStr "old"]> ∅)))).

Definition S1_versions : versions :=
  [("v1", {| SecretString := app_credentials; VersionStages := [AWSCURRENT] |})].

(** S1 before the rotation; the random source walks through the alphabet in
    steps of three. *)
Definition S1_world : world :=
  {| secrets := {["S1" := S1_versions]}; entropy := fun i => i * 3; drawn := 0;
     recursion_limit := 5; journal := [] |}.

Definition tok1_password : string := "adgjmpsvyBEHKNQTWZ258@%*cfilorux".

Definition tok1_version : secret_version :=
  {| SecretString := <["password" := JStr tok1_password]> app_credentials;
     VersionStages := [AWSPENDING] |}.

(** S1 after Create(S1, tok1), and after Finish(S1, tok1). *)
Definition S1_pending_world : world := (create_secret "S1" "tok1" S1_world).2.
Definition S1_finished_world : world := (finish_secret "S1" "tok1" S1_pending_world).2.

(** A database that accepts the connection and fails the probe query. *)
Definition failing_query : probe_behaviour :=
  {| connect_ok := true; execute_ok := false; fetched_row := None |}.

Definition healthy_db : probe_behaviour :=
  {| connect_ok := true; execute_ok := true; fetched_row := Some [1%Z] |}.

(** A secret without any version staged AWSCURRENT, one of whose version ids
    is the string AWSCURRENT. *)
Definition mislabelled_world : world :=
  {| secrets := {["S1" := [("AWSCURRENT", {| SecretString := app_credentials;
                                             VersionStages := [AWSPENDING] |})]]};
     entropy := fun i => i * 3; drawn := 0; recursion_limit := 5; journal := [] |}.

(** ** Vocabulary of the further properties *)


(** The keys of the credential record that [test_secret] reads, in the order
    it reads them. *)
Definition probe_fields : list string :=
  ["host"; "port"; "dbname"; "username"; "password"].


(** The secret a call is about. *)
Definition call_secret (c : call) : string :=
  match c with
  | Invoke _ _ event => SecretId event
  | CreateStep arn _ | SetStep _ arn _ | TestStep _ arn _ | FinishStep arn _ => arn
  end.

(** The writes a call can make to the store: none, one new version staged
    AWSPENDING under a token that named no version, or one move of
    AWSCURRENT onto an existing version. *)
Inductive store_step (arn : string) : gmap string versions → gmap string versions → Prop :=
| step_none s : store_step arn s s
| step_put s vs token payload :
    s !! arn = Some vs → lookup_version token vs = None →
    store_step arn s (<[arn := put_versions token payload [AWSPENDING] vs]> s)
| step_move s vs token remove_from :
    s !! arn = Some vs → is_Some (lookup_version token vs) →
    label_left_behind AWSCURRENT token remove_from vs = false →
    store_step arn s (<[arn := move_stage AWSCURRENT token remove_from vs]> s).

(** The ids and records of the versions of a secret, without their labels. *)
Definition payloads (vs : versions) : list (string * secret_dict) :=
  (fun p => (p.1, SecretString p.2)) <$> vs.



(** * Proofs *)

(** ** Properties of the store kept by a computation

    [stable I] is closed under the monad's operations, and every operation
    that only reads the store keeps every [I]. *)

Section Stable.
Context (I : gmap string versions → Prop).

Lemma stable_ret {A} (a : A) : stable I (ret a).
Proof. by intros w. Qed.

Lemma stable_raise {A} e : stable I (@raise A e).
Proof. by intros w. Qed.

Lemma stable_bind {A B} (m : M A) (k : A → M B) :
  stable I m → (∀ a, stable I (k a)) → stable I (bind m k).
Proof.
  intros Hm Hk w Hw. unfold bind. specialize (Hm w Hw).
  destruct (m w) as [[a|e] w']; simpl in *; [by apply Hk | done].
Qed.

Lemma stable_try_except {A} (m : M A) catches h :
  stable I m → (∀ e, stable I (h e)) → stable I (try_except m catches h).
Proof.
  intros Hm Hh w Hw. unfold try_except. specialize (Hm w Hw).
  destruct (m w) as [[a|e] w']; simpl in *; [done|].
  destruct (catches e); [by apply Hh | done].
Qed.

Lemma stable_if {A} (b : bool) (m1 m2 : M A) :
  stable I m1 → stable I m2 → stable I (if b then m1 else m2).
Proof. by destruct b. Qed.

Lemma stable_emit e : stable I (emit e).
Proof. by intros w. Qed.

Lemma stable_getitem d key : stable I (getitem d key).
Proof. unfold getitem. destruct (d !! key); [apply stable_ret | apply stable_raise]. Qed.

Lemma stable_check_sentinel r : stable I (check_sentinel r).
Proof.
  destruct r as [[|x l]|]; simpl; try apply stable_raise.
  apply stable_if; [apply stable_ret | apply stable_raise].
Qed.

Lemma stable_get_secret_value arn vid stage : stable I (get_secret_value arn vid stage).
Proof.
  intros w Hw. unfold get_secret_value.
  destruct (secrets w !! arn); [|done].
  by match goal with |- context [match ?f with Some _ => _ | None => _ end] => destruct f end.
Qed.

Lemma stable_get_secret_dict arn stage token : stable I (get_secret_dict arn stage token).
Proof. apply stable_get_secret_value. Qed.

Lemma stable_describe_secret arn : stable I (describe_secret arn).
Proof. intros w Hw. unfold describe_secret. by destruct (secrets w !! arn). Qed.

Lemma stable_random_choice seq : stable I (random_choice seq).
Proof. by intros w. Qed.

Lemma stable_sample n : stable I (sample n).
Proof.
  induction n as [|n IH]; simpl; [apply stable_ret|].
  apply stable_bind; [apply stable_random_choice|]. intros c.
  apply stable_bind; [done|]. intros s. apply stable_ret.
Qed.

Lemma stable_generate_password_at depth n : stable I (generate_password_at depth n).
Proof.
  induction depth as [|d IH]; simpl; [apply stable_raise|].
  apply stable_bind; [apply stable_sample|]. intros p.
  apply stable_if; [apply stable_ret | done].
Qed.

Lemma stable_generate_password n : stable I (generate_password n).
Proof. intros w Hw. by apply stable_generate_password_at. Qed.

Lemma stable_set_secret rds arn token : stable I (set_secret rds arn token).
Proof.
  unfold set_secret.
  repeat (apply stable_bind; [first [apply stable_get_secret_dict | apply stable_getitem]|intros ?]).
  apply stable_if; [apply stable_emit | apply stable_raise].
Qed.

Lemma stable_test_secret db arn token : stable I (test_secret db arn token).
Proof.
  unfold test_secret.
  repeat (apply stable_bind;
          [first [apply stable_get_secret_dict | apply stable_getitem | apply stable_emit
                 | apply stable_if; [apply stable_emit | apply stable_raise] ]
          |intros ?]).
  apply stable_check_sentinel.
Qed.
End Stable.

(** ** Carriers of a label *)

Lemma carriers_nil stage : carriers stage [] = [].
Proof. done. Qed.

Lemma carriers_cons stage id v vs :
  carriers stage ((id, v) :: vs) =
  if has_stage stage v then id :: carriers stage vs else carriers stage vs.
Proof.
  unfold carriers. rewrite filter_cons. simpl.
  destruct (has_stage stage v); by case_decide.
Qed.

Lemma carriers_app stage vs1 vs2 :
  carriers stage (vs1 ++ vs2) = carriers stage vs1 ++ carriers stage vs2.
Proof. unfold carriers. by rewrite filter_app, fmap_app. Qed.

Lemma elem_of_carriers stage id vs :
  id ∈ carriers stage vs → id ∈ vs.*1.
Proof.
  induction vs as [|[i v] vs IH]; [done|].
  rewrite carriers_cons. simpl. destruct (has_stage stage v); set_solver.
Qed.

Lemma lookup_version_None key vs :
  lookup_version key vs = None ↔ key ∉ vs.*1.
Proof.
  induction vs as [|[i v] vs IH]; simpl; [set_solver|].
  case_bool_decide; [set_solver|]. rewrite IH. set_solver.
Qed.

Lemma lookup_version_Some key v vs :
  lookup_version key vs = Some v → (key, v) ∈ vs.
Proof.
  induction vs as [|[i u] vs IH]; simpl; [done|].
  case_bool_decide; [|set_solver]. intros [= ->]. subst. set_solver.
Qed.

Lemma lookup_version_carrier stage key v vs :
  lookup_version key vs = Some v → has_stage stage v = true →
  key ∈ carriers stage vs.
Proof.
  induction vs as [|[i u] vs IH]; simpl; [done|]. rewrite carriers_cons.
  case_bool_decide.
  - intros [= ->] ->. subst. set_solver.
  - intros ??. destruct (has_stage stage u); set_solver.
Qed.

Lemma at_most_one_singleton stage key vs :
  at_most_one stage vs → key ∈ carriers stage vs → carriers stage vs = [key].
Proof.
  unfold at_most_one. destruct (carriers stage vs) as [|a [|b l]]; simpl.
  - set_solver.
  - intros _ ?. f_equal. set_solver.
  - lia.
Qed.

(** Relabelling that leaves one label alone leaves its carriers alone. *)
Lemma carriers_relabel stage (f : string * secret_version → string * secret_version) vs :
  (∀ p, p ∈ vs → (f p).1 = p.1 ∧ has_stage stage (f p).2 = has_stage stage p.2) →
  carriers stage (f <$> vs) = carriers stage vs.
Proof.
  induction vs as [|[i v] vs IH]; [done|]. intros Hf. rewrite fmap_cons.
  destruct (Hf (i, v)) as [H1 H2]; [set_solver|].
  destruct (f (i, v)) as [i' v'] eqn:Hfp. simpl in H1, H2.
  rewrite !carriers_cons, H1, H2, IH; [done|]. intros p Hp. apply Hf. set_solver.
Qed.

Lemma ids_relabel (f : string * secret_version → string * secret_version) (vs : versions) :
  (∀ p, (f p).1 = p.1) → (f <$> vs).*1 = vs.*1.
Proof.
  intros Hf. induction vs as [|p vs IH]; [done|]. rewrite !fmap_cons. by rewrite Hf, IH.
Qed.

Lemma has_stage_remove_stages stage stages v :
  has_stage stage (remove_stages stages v) =
  has_stage stage v && negb (bool_decide (stage ∈ stages)).
Proof.
  unfold has_stage, remove_stages. simpl.
  apply eq_true_iff_eq. rewrite andb_true_iff, negb_true_iff, bool_decide_eq_false.
  rewrite !bool_decide_eq_true, list_elem_of_filter. tauto.
Qed.

Lemma has_stage_add_stage stage stage' v :
  has_stage stage (add_stage stage' v) =
  has_stage stage v || bool_decide (stage = stage').
Proof.
  unfold add_stage. destruct (has_stage stage' v) eqn:Hv; simpl.
  - case_bool_decide; [subst; by rewrite Hv | by rewrite orb_false_r].
  - unfold has_stage. simpl. apply eq_true_iff_eq.
    rewrite orb_true_iff, !bool_decide_eq_true, elem_of_app, list_elem_of_singleton. tauto.
Qed.

(** ** What the two writes do to the carriers *)

Lemma carriers_put stage token payload stages vs :
  carriers stage (put_versions token payload stages vs) =
  if bool_decide (stage ∈ stages) then [token] else carriers stage vs.
Proof.
  unfold put_versions. rewrite carriers_app, carriers_cons, carriers_nil.
  unfold has_stage. simpl. case_bool_decide as Hin.
  - replace (carriers stage (_ <$> vs)) with (@nil string); [done|].
    induction vs as [|[i v] vs IH]; [done|]. simpl.
    rewrite carriers_cons, has_stage_remove_stages, bool_decide_true by done.
    by rewrite andb_false_r.
  - rewrite app_nil_r. apply carriers_relabel. intros p _. split; [done|].
    simpl. rewrite has_stage_remove_stages, bool_decide_false by done.
    by rewrite andb_true_r.
Qed.

Lemma ids_put token payload stages vs :
  (put_versions token payload stages vs).*1 = vs.*1 ++ [token].
Proof.
  unfold put_versions. rewrite fmap_app. f_equal. by apply ids_relabel.
Qed.

Lemma ids_move_stage stage target remove_from vs :
  (move_stage stage target remove_from vs).*1 = vs.*1.
Proof.
  apply ids_relabel. intros p. by repeat case_bool_decide.
Qed.

Lemma carriers_move_other stage stage' target remove_from vs :
  stage' ≠ stage →
  carriers stage' (move_stage stage target remove_from vs) = carriers stage' vs.
Proof.
  intros Hne. apply carriers_relabel. intros p _.
  repeat case_bool_decide; simpl; split; try done.
  - rewrite has_stage_add_stage, bool_decide_false by done. by rewrite orb_false_r.
  - rewrite has_stage_remove_stages, bool_decide_false by set_solver.
    by rewrite andb_true_r.
Qed.

Lemma carriers_move_same stage target remove_from vs :
  label_left_behind stage target remove_from vs = false →
  carriers stage (move_stage stage target remove_from vs) =
  filter (fun id => id = target) vs.*1.
Proof.
  induction vs as [|[i v] vs IH]; [done|]. simpl. intros Hleft.
  apply orb_false_iff in Hleft as [Hhere Hleft]. rewrite filter_cons. simpl.
  specialize (IH Hleft). unfold move_stage in IH.
  case_bool_decide as Ht; simpl.
  - rewrite carriers_cons, has_stage_add_stage, bool_decide_true by done.
    rewrite orb_true_r, decide_True by done. by f_equal.
  - rewrite decide_False by done. case_bool_decide as Hr.
    + rewrite carriers_cons, has_stage_remove_stages, bool_decide_true by set_solver.
      by rewrite andb_false_r.
    + rewrite carriers_cons. destruct (has_stage stage v); [by simpl in Hhere | done].
Qed.

Lemma filter_eq_NoDup (a : string) (l : list string) :
  NoDup l → filter (fun x => x = a) l = if bool_decide (a ∈ l) then [a] else [].
Proof.
  induction l as [|x l IH]; [done|]. rewrite NoDup_cons. intros [Hx Hnd].
  rewrite filter_cons, IH by done.
  destruct (decide (x = a)) as [->|Hxa].
  - rewrite (bool_decide_true (a ∈ a :: l)) by set_solver.
    by rewrite (bool_decide_false (a ∈ l)).
  - destruct (decide (a ∈ l)) as [Hin|Hin].
    + by rewrite !bool_decide_true by set_solver.
    + by rewrite !bool_decide_false by set_solver.
Qed.

(** ** The writes keep the store well formed *)

Lemma wf_store_insert (s : gmap string versions) arn vs :
  wf_store s →
  NoDup vs.*1 ∧ at_most_one AWSCURRENT vs ∧ at_most_one AWSPENDING vs →
  wf_store (<[arn := vs]> s).
Proof.
  intros Hs Hvs arn' vs'. rewrite lookup_insert. case_decide.
  - by intros [= <-].
  - apply Hs.
Qed.

Lemma at_most_one_put stage token payload stages vs :
  at_most_one stage vs → at_most_one stage (put_versions token payload stages vs).
Proof.
  unfold at_most_one. rewrite carriers_put. case_bool_decide; simpl; lia.
Qed.

Lemma at_most_one_move stage stage' target remove_from vs :
  NoDup vs.*1 → label_left_behind stage' target remove_from vs = false →
  at_most_one stage vs → at_most_one stage (move_stage stage' target remove_from vs).
Proof.
  intros Hnd Hleft. unfold at_most_one. destruct (decide (stage = stage')) as [->|Hne].
  - rewrite carriers_move_same, filter_eq_NoDup by done. case_bool_decide; simpl; lia.
  - by rewrite carriers_move_other.
Qed.

Lemma stable_put_secret_value arn token payload stages :
  stable wf_store (put_secret_value arn token payload stages).
Proof.
  intros w Hw. unfold put_secret_value.
  destruct (secrets w !! arn) as [vs|] eqn:Hvs; [|done].
  destruct (lookup_version token vs) eqn:Htok; [done|]. simpl.
  destruct (Hw arn vs Hvs) as (Hnd & Hc & Hp).
  apply wf_store_insert; [done|]. split_and!.
  - rewrite ids_put. apply NoDup_app. split_and!; [done| |apply NoDup_singleton].
    intros x Hx. apply lookup_version_None in Htok. set_solver.
  - by apply at_most_one_put.
  - by apply at_most_one_put.
Qed.

Lemma stable_update_secret_version_stage arn stage token remove_from :
  stable wf_store (update_secret_version_stage arn stage token remove_from).
Proof.
  intros w Hw. unfold update_secret_version_stage.
  destruct (secrets w !! arn) as [vs|] eqn:Hvs; [|done].
  destruct (lookup_version token vs) eqn:Htok; [|done].
  match goal with |- context [if ?c then _ else _] => destruct c eqn:Hc end; [|done].
  apply andb_true_iff in Hc as [_ Hleft]. apply negb_true_iff in Hleft. simpl.
  destruct (Hw arn vs Hvs) as (Hnd & Hcur & Hpen).
  apply wf_store_insert; [done|]. split_and!.
  - by rewrite ids_move_stage.
  - by apply at_most_one_move.
  - by apply at_most_one_move.
Qed.

Lemma stable_create_secret arn token : stable wf_store (create_secret arn token).
Proof.
  unfold create_secret. apply stable_try_except.
  - apply stable_bind; [apply stable_get_secret_value | intros ?; apply stable_ret].
  - intros _. apply stable_bind; [apply stable_get_secret_dict | intros ?].
    apply stable_bind; [apply stable_generate_password | intros ?].
    apply stable_put_secret_value.
Qed.

Lemma stable_finish_secret arn token : stable wf_store (finish_secret arn token).
Proof.
  unfold finish_secret. apply stable_bind; [apply stable_describe_secret | intros d].
  destruct (scan_versions token d);
    [apply stable_ret | apply stable_update_secret_version_stage].
Qed.

Lemma stable_lambda_handler rds db event :
  stable wf_store (lambda_handler rds db event).
Proof.
  unfold lambda_handler. apply stable_bind; [apply stable_describe_secret | intros d].
  repeat (apply stable_if; [first [apply stable_raise | apply stable_create_secret
                                  | apply stable_set_secret | apply stable_test_secret
                                  | apply stable_finish_secret]|]).
  apply stable_raise.
Qed.

Lemma stable_run_call c : stable wf_store (run_call c).
Proof.
  destruct c; simpl;
    [apply stable_lambda_handler | apply stable_create_secret | apply stable_set_secret
    | apply stable_test_secret | apply stable_finish_secret].
Qed.

Lemma wf_store_run_calls cs w :
  wf_store (secrets w) → wf_store (secrets (run_calls cs w)).
Proof.
  revert w. induction cs as [|c cs IH]; intros w Hw; simpl; [done|].
  apply IH. by apply stable_run_call.
Qed.

Lemma wf_store_label_unique s : wf_store s → label_unique s.
Proof. intros Hs arn vs Hvs. by destruct (Hs arn vs Hvs) as (_ & ? & ?). Qed.

(** C1. After any sequence of calls made by the orchestrator, through the
    handler or to the step functions themselves, and whatever their outcomes,
    every secret of a well-formed store has at most one version that carries
    AWSCURRENT and at most one that carries AWSPENDING. *)
Theorem label_uniqueness_invariant (cs : list call) (w : world) :
  wf_store (secrets w) → label_unique (secrets (run_calls cs w)).
Proof.
  intros Hw. by apply wf_store_label_unique, wf_store_run_calls.
Qed.

(** ** Password generation *)

Lemma set_drawn_set_drawn n m w : set_drawn n (set_drawn m w) = set_drawn n w.
Proof. done. Qed.

Lemma set_drawn_id w : set_drawn (drawn w) w = w.
Proof. by destruct w. Qed.

(** A sample consumes [length] draws and has [length] characters. *)
Lemma sample_spec n w :
  ∃ s, sample n w = (Ok s, set_drawn (drawn w + n) w) ∧ String.length s = n.
Proof.
  revert w. induction n as [|n IH]; intros w.
  - exists EmptyString. cbn [sample]. unfold ret.
    rewrite Nat.add_0_r, set_drawn_id. done.
  - cbn [sample]. destruct (IH (set_drawn (S (drawn w)) w)) as (s & Hs & Hlen).
    unfold bind, random_choice. rewrite Hs. unfold ret.
    rewrite set_drawn_set_drawn. cbn [drawn set_drawn].
    replace (S (drawn w) + n) with (drawn w + S n) by lia.
    eexists. split; [reflexivity|]. cbn [String.length]. by rewrite Hlen.
Qed.

Lemma sample_candidate n w :
  sample n w = (Ok (candidate n 0 w), set_drawn (drawn w + n) w).
Proof.
  unfold candidate. rewrite Nat.mul_0_l, Nat.add_0_r, set_drawn_id.
  by destruct (sample_spec n w) as (s & -> & _).
Qed.

Lemma candidate_length n k w : String.length (candidate n k w) = n.
Proof.
  unfold candidate.
  by destruct (sample_spec n (set_drawn (drawn w + k * n) w)) as (s & -> & ?).
Qed.

Lemma candidate_shift n k w :
  candidate n k (set_drawn (drawn w + n) w) = candidate n (S k) w.
Proof.
  unfold candidate. rewrite set_drawn_set_drawn. cbn [drawn set_drawn].
  by replace (drawn w + n + k * n) with (drawn w + S k * n) by lia.
Qed.

(** What a run of the generator does, in terms of the candidates it draws:
    it returns the first candidate that meets the complexity requirement, one
    recursive call per rejected candidate, and raises [RecursionError] when
    every candidate the recursion depth allows was rejected. *)
Lemma generate_password_at_spec depth n w :
  match generate_password_at depth n w with
  | (Ok password, w') =>
      ∃ k, k < depth ∧ (∀ j, j < k → complexity (candidate n j w) = false) ∧
           complexity (candidate n k w) = true ∧ password = candidate n k w ∧
           w' = set_drawn (drawn w + S k * n) w
  | (Raise e, w') =>
      e = RecursionError ∧ (∀ j, j < depth → complexity (candidate n j w) = false) ∧
      w' = set_drawn (drawn w + depth * n) w
  end.
Proof.
  revert w. induction depth as [|d IH]; intros w; cbn [generate_password_at].
  - unfold raise. split_and!; [done|lia|]. by rewrite Nat.mul_0_l, Nat.add_0_r, set_drawn_id.
  - unfold bind. rewrite sample_candidate.
    destruct (complexity (candidate n 0 w)) eqn:Hc.
    + unfold ret. exists 0. split_and!; [lia|lia|done|done|].
      f_equal. lia.
    + specialize (IH (set_drawn (drawn w + n) w)).
      destruct (generate_password_at d n (set_drawn (drawn w + n) w)) as [[pw|e] w'].
      * destruct IH as (k & Hk & Hbefore & Hgood & -> & ->).
        exists (S k). rewrite candidate_shift in Hgood. split_and!; [lia| |done| |].
        -- intros [|j] Hj; [done|]. rewrite <- candidate_shift. apply Hbefore. lia.
        -- by rewrite candidate_shift.
        -- rewrite set_drawn_set_drawn. cbn [drawn set_drawn]. f_equal. lia.
      * destruct IH as (-> & Hall & ->). split_and!; [done| |].
        -- intros [|j] Hj; [done|]. rewrite <- candidate_shift. apply Hall. lia.
        -- rewrite set_drawn_set_drawn. cbn [drawn set_drawn]. f_equal. lia.
Qed.

Lemma complexity_meets_policy password :
  String.length password = 32 → complexity password = true → meets_policy password.
Proof.
  unfold complexity, meets_policy. rewrite !andb_true_iff. tauto.
Qed.

Lemma attempts_set_drawn n k w :
  0 < n → attempts n w (set_drawn (drawn w + k * n) w) = k.
Proof.
  intros Hn. unfold attempts. cbn [drawn set_drawn].
  replace (drawn w + k * n - drawn w) with (k * n) by lia.
  apply Nat.div_mul. lia.
Qed.

Lemma stuck_candidate limit j : complexity (candidate 32 j (stuck_world limit)) = false.
Proof.
  unfold candidate. generalize (drawn (stuck_world limit) + j * 32). intros pos.
  by vm_compute.
Qed.

(** The generator at the default length: which candidate it returns, and how
    many it drew. *)
Lemma generate_password_32_spec w :
  match generate_password 32 w with
  | (Ok password, w') =>
      ∃ k, k < recursion_limit w ∧
           (∀ j, j < k → complexity (candidate 32 j w) = false) ∧
           password = candidate 32 k w ∧ complexity password = true ∧
           attempts 32 w w' = S k
  | (Raise e, w') =>
      e = RecursionError ∧
      (∀ j, j < recursion_limit w → complexity (candidate 32 j w) = false) ∧
      attempts 32 w w' = recursion_limit w
  end.
Proof.
  unfold generate_password.
  pose proof (generate_password_at_spec (recursion_limit w) 32 w) as H.
  destruct (generate_password_at (recursion_limit w) 32 w) as [[pw|e] w'].
  - destruct H as (k & Hk & Hbefore & Hgood & -> & ->).
    exists k. split_and!; [done..|]. apply attempts_set_drawn. lia.
  - destruct H as (-> & Hall & ->). split_and!; [done..|]. apply attempts_set_drawn. lia.
Qed.

(** C8 (as amended). [generate_password] has no retry cap of its own and no
    failure of its own: it draws candidates one recursive call after another
    and returns the first that meets the four-class requirement; only when
    every candidate that the interpreter's recursion limit allows was rejected
    does the call end, with the interpreter's RecursionError, after exactly
    that many attempts. *)
Theorem generate_password_retries_to_the_limit (w : world) :
  match generate_password 32 w with
  | (Ok password, w') =>
      ∃ k, k < recursion_limit w ∧
           (∀ j, j < k → complexity (candidate 32 j w) = false) ∧
           password = candidate 32 k w ∧ complexity password = true ∧
           attempts 32 w w' = S k
  | (Raise e, w') =>
      e = RecursionError ∧
      (∀ j, j < recursion_limit w → complexity (candidate 32 j w) = false) ∧
      attempts 32 w w' = recursion_limit w
  end.
Proof. apply generate_password_32_spec. Qed.

(** C8 (as stated) fails: no number caps the attempts.  On a source that
    keeps drawing the letter a, a limit of 3 frames gives 3 attempts and a
    RecursionError, and a limit of [cap + 1] frames gives [cap + 1]
    attempts. *)
Lemma generate_password_has_no_cap :
  generate_password 32 (stuck_world 3)
    = (Raise RecursionError, set_drawn 96 (stuck_world 3)) ∧
  ¬ ∃ cap, ∀ w, attempts 32 w (generate_password 32 w).2 ≤ cap.
Proof.
  split; [by vm_compute|]. intros [cap Hcap].
  specialize (Hcap (stuck_world (S cap))).
  pose proof (generate_password_32_spec (stuck_world (S cap))) as H.
  destruct (generate_password 32 (stuck_world (S cap))) as [[pw|e] w'].
  - destruct H as (k & _ & _ & -> & Hgood & _). by rewrite stuck_candidate in Hgood.
  - destruct H as (_ & _ & Hn). cbn [snd recursion_limit stuck_world] in *. lia.
Qed.

Lemma generate_password_returns_policy w password w' :
  generate_password 32 w = (Ok password, w') → meets_policy password.
Proof.
  intros Hgen. pose proof (generate_password_32_spec w) as H. rewrite Hgen in H.
  destruct H as (k & _ & _ & Hpw & Hgood & _).
  apply complexity_meets_policy; [|exact Hgood]. rewrite Hpw. apply candidate_length.
Qed.

(** C9. Every password that [generate_password(32)] returns has 32
    characters, among them a lowercase letter, an uppercase letter, a digit
    and one of the symbols; and it does return one whenever one of the
    candidates drawn within the recursion limit meets the requirement. *)
Theorem generate_password_32_meets_policy (w : world) :
  (∀ password w', generate_password 32 w = (Ok password, w') → meets_policy password) ∧
  ((∃ k, k < recursion_limit w ∧ complexity (candidate 32 k w) = true) →
   ∃ password w', generate_password 32 w = (Ok password, w') ∧ meets_policy password).
Proof.
  split; [intros ??; apply generate_password_returns_policy|].
  intros (k & Hk & Hgood).
  pose proof (generate_password_32_spec w) as H.
  destruct (generate_password 32 w) as [[pw|e] w1] eqn:Hgen.
  - exists pw, w1. split; [reflexivity|].
    exact (generate_password_returns_policy w pw w1 Hgen).
  - destruct H as (_ & Hall & _). by rewrite Hall in Hgood.
Qed.

Lemma generate_password_32_meets_policy_witness :
  ∃ password w', generate_password 32 retry_world = (Ok password, w') ∧
                 meets_policy password.
Proof.
  apply (proj2 (generate_password_32_meets_policy retry_world)).
  exists 1. split; [cbn; lia | by vm_compute].
Defined.

(** ** Reading the store *)

Lemma get_secret_value_by_id arn id stage w vs :
  secrets w !! arn = Some vs →
  get_secret_value arn (Some id) stage w =
  match lookup_version id vs with
  | Some v => if has_stage stage v then (Ok (SecretString v), w)
              else (Raise ResourceNotFoundException, w)
  | None => (Raise ResourceNotFoundException, w)
  end.
Proof.
  intros Hvs. unfold get_secret_value. rewrite Hvs.
  destruct (lookup_version id vs) as [v|]; [|done]. by destruct (has_stage stage v).
Qed.

Lemma get_secret_value_by_stage arn stage w vs :
  secrets w !! arn = Some vs →
  get_secret_value arn None stage w =
  match staged_version stage vs with
  | Some v => (Ok (SecretString v), w)
  | None => (Raise ResourceNotFoundException, w)
  end.
Proof. intros Hvs. unfold get_secret_value. by rewrite Hvs. Qed.

Lemma get_secret_value_unknown arn id stage w :
  secrets w !! arn = None →
  get_secret_value arn id stage w = (Raise ResourceNotFoundException, w).
Proof. intros Hvs. unfold get_secret_value. by rewrite Hvs. Qed.

Lemma lookup_version_app key vs1 vs2 :
  lookup_version key (vs1 ++ vs2) =
  match lookup_version key vs1 with
  | Some v => Some v
  | None => lookup_version key vs2
  end.
Proof.
  induction vs1 as [|[i v] vs1 IH]; [done|]. cbn [app lookup_version].
  by case_bool_decide.
Qed.

Lemma lookup_version_relabel key (g : string → secret_version → secret_version)
    (vs : versions) :
  lookup_version key ((fun p => (p.1, g p.1 p.2)) <$> vs) = g key <$> lookup_version key vs.
Proof.
  induction vs as [|[i v] vs IH]; [done|]. rewrite fmap_cons. cbn [lookup_version fst snd].
  case_bool_decide; [by subst | done].
Qed.

Lemma lookup_version_put key token payload stages vs :
  lookup_version key (put_versions token payload stages vs) =
  match lookup_version key vs with
  | Some v => Some (remove_stages stages v)
  | None => if bool_decide (token = key)
            then Some {| SecretString := payload; VersionStages := stages |}
            else None
  end.
Proof.
  unfold put_versions. rewrite lookup_version_app.
  replace (lookup_version key ((fun p => (p.1, remove_stages stages p.2)) <$> vs))
    with (remove_stages stages <$> lookup_version key vs)
    by (symmetry; apply (lookup_version_relabel key (fun _ => remove_stages stages))).
  destruct (lookup_version key vs); [done|]. cbn [fmap option_fmap option_map lookup_version].
  by case_bool_decide.
Qed.


(** The scan of [finish_secret] finds the first carrier of AWSCURRENT. *)
Lemma scan_versions_carriers token vs :
  scan_versions token ((fun p => (p.1, VersionStages p.2)) <$> vs) =
  match carriers AWSCURRENT vs with
  | [] => Scanned None
  | version :: _ => if bool_decide (version = token) then AlreadyCurrent
                    else Scanned (Some version)
  end.
Proof.
  induction vs as [|[i v] vs IH]; [done|].
  rewrite fmap_cons, carriers_cons. cbn [scan_versions fst snd].
  unfold has_stage. by case_bool_decide.
Qed.


Lemma secrets_generate_password n w :
  secrets (generate_password n w).2 = secrets w.
Proof. by apply (stable_generate_password (fun s => s = secrets w)). Qed.

(** ** Finish *)

Lemma finish_secret_already_current arn token w vs rest :
  secrets w !! arn = Some vs → carriers AWSCURRENT vs = token :: rest →
  finish_secret arn token w = (Ok tt, w).
Proof.
  intros Hvs Hc. unfold finish_secret, bind, describe_secret. rewrite Hvs.
  by rewrite scan_versions_carriers, Hc, bool_decide_true.
Qed.

Lemma update_secret_version_stage_ok arn stage token remove_from w w1 :
  wf_store (secrets w) →
  update_secret_version_stage arn stage token remove_from w = (Ok tt, w1) →
  ∃ vs, secrets w !! arn = Some vs ∧
        w1 = set_secrets (<[arn := move_stage stage token remove_from vs]> (secrets w)) w ∧
        carriers stage (move_stage stage token remove_from vs) = [token].
Proof.
  intros Hw. unfold update_secret_version_stage.
  destruct (secrets w !! arn) as [vs|] eqn:Hvs; [|done].
  destruct (lookup_version token vs) as [v|] eqn:Htok; [|done].
  match goal with |- context [if ?c then _ else _] => destruct c eqn:Hc end; [|done].
  intros [= <-]. exists vs. split_and!; [done..|].
  apply andb_true_iff in Hc as [_ Hleft]. apply negb_true_iff in Hleft.
  destruct (Hw arn vs Hvs) as (Hnd & _).
  rewrite carriers_move_same, filter_eq_NoDup by done.
  rewrite bool_decide_true; [done|].
  apply lookup_version_Some in Htok. apply list_elem_of_fmap. by exists (token, v).
Qed.

(** C3. Finish twice with the same token: once the first call has returned,
    exactly one version carries AWSCURRENT, the token's, and the second call
    returns at its early [return] and leaves the world as the first call left
    it; more generally finish_secret is a no-op whenever the token's version
    already carries AWSCURRENT. *)
Theorem finish_secret_twice (arn token : string) (w w1 : world) :
  wf_store (secrets w) →
  finish_secret arn token w = (Ok tt, w1) →
  (∃ vs1, secrets w1 !! arn = Some vs1 ∧ carriers AWSCURRENT vs1 = [token]) ∧
  finish_secret arn token w1 = (Ok tt, w1) ∧
  (∀ w' vs v, wf_store (secrets w') → secrets w' !! arn = Some vs →
     lookup_version token vs = Some v → has_stage AWSCURRENT v = true →
     finish_secret arn token w' = (Ok tt, w')).
Proof.
  intros Hw Hfin.
  assert (∃ vs1, secrets w1 !! arn = Some vs1 ∧ carriers AWSCURRENT vs1 = [token])
    as (vs1 & Hvs1 & Hc1).
  { revert Hfin. unfold finish_secret, bind, describe_secret.
    destruct (secrets w !! arn) as [vs|] eqn:Hvs; [|done].
    rewrite scan_versions_carriers.
    destruct (Hw arn vs Hvs) as (_ & Hcur & _).
    destruct (carriers AWSCURRENT vs) as [|c rest] eqn:Hc.
    - intros Hup. apply update_secret_version_stage_ok in Hup as (vs' & Hvs' & -> & ?); [|done].
      eexists. split; [apply lookup_insert_eq | done].
    - case_bool_decide as Heq.
      + intros [= <-]. subst c. exists vs. split; [done|].
        apply at_most_one_singleton; [done|]. rewrite Hc. set_solver.
      + intros Hup. apply update_secret_version_stage_ok in Hup as (vs' & Hvs' & -> & ?); [|done].
        eexists. split; [apply lookup_insert_eq | done]. }
  split_and!.
  - by exists vs1.
  - by eapply finish_secret_already_current.
  - intros w' vs v Hw' Hvs Hv Hcur. eapply finish_secret_already_current; [done|].
    destruct (Hw' arn vs Hvs) as (_ & Hone & _).
    apply at_most_one_singleton; [done|]. by eapply lookup_version_carrier.
Qed.

(** ** Create *)

Lemma create_secret_already_pending arn token w vs v :
  secrets w !! arn = Some vs → lookup_version token vs = Some v →
  has_stage AWSPENDING v = true →
  create_secret arn token w = (Ok tt, w).
Proof.
  intros Hvs Hv Hp. unfold create_secret, try_except, bind.
  by rewrite (get_secret_value_by_id _ _ _ _ _ Hvs), Hv, Hp.
Qed.

Lemma put_secret_value_ok arn token payload stages w w1 :
  put_secret_value arn token payload stages w = (Ok tt, w1) →
  ∃ vs, secrets w !! arn = Some vs ∧ lookup_version token vs = None ∧
        w1 = set_secrets (<[arn := put_versions token payload stages vs]> (secrets w)) w.
Proof.
  unfold put_secret_value. destruct (secrets w !! arn) as [vs|]; [|done].
  destruct (lookup_version token vs) eqn:Htok; [done|]. intros [= <-]. by exists vs.
Qed.

(** What the [except] branch of [create_secret] does once it has returned. *)
Lemma create_secret_put arn token w w1 vs :
  secrets w !! arn = Some vs →
  (current_secret <- get_secret_dict arn AWSCURRENT None ;;
   password <- generate_password 32 ;;
   put_secret_value arn token (<["password" := JStr password]> current_secret)
                    [AWSPENDING]) w = (Ok tt, w1) →
  ∃ payload, lookup_version token vs = None ∧
             secrets w1 = <[arn := put_versions token payload [AWSPENDING] vs]> (secrets w).
Proof.
  intros Hvs. unfold bind, get_secret_dict.
  rewrite (get_secret_value_by_stage _ _ _ _ Hvs).
  destruct (staged_version AWSCURRENT vs) as [cur|]; [|done].
  pose proof (secrets_generate_password 32 w) as Hsec.
  destruct (generate_password 32 w) as [[pw|e] w2]; [|done]. cbn [snd] in Hsec.
  intros Hput. apply put_secret_value_ok in Hput as (vs2 & Hvs2 & Hnone & ->).
  rewrite Hsec, Hvs in Hvs2. injection Hvs2 as <-.
  eexists. split; [done|]. cbn [secrets set_secrets]. by rewrite Hsec.
Qed.

(** C2. Create twice with the same token: once the first call has returned,
    exactly one version carries AWSPENDING, the token's, and the second call
    finds it, returns, and leaves the world as the first call left it: no
    second version is written. *)
Theorem create_secret_twice (arn token : string) (w w1 : world) :
  wf_store (secrets w) →
  create_secret arn token w = (Ok tt, w1) →
  (∃ vs1, secrets w1 !! arn = Some vs1 ∧ carriers AWSPENDING vs1 = [token]) ∧
  create_secret arn token w1 = (Ok tt, w1).
Proof.
  intros Hw. unfold create_secret at 1. unfold try_except, bind at 1.
  destruct (secrets w !! arn) as [vs|] eqn:Hvs.
  - rewrite (get_secret_value_by_id _ _ _ _ _ Hvs).
    destruct (lookup_version token vs) as [v|] eqn:Hv;
      [destruct (has_stage AWSPENDING v) eqn:Hp|].
    + intros [= <-]. split; [|by eapply create_secret_already_pending].
      exists vs. split; [done|]. destruct (Hw arn vs Hvs) as (_ & _ & Hone).
      apply at_most_one_singleton; [done|]. by eapply lookup_version_carrier.
    + cbn [is_ResourceNotFound]. intros Hput.
      apply (create_secret_put _ _ _ _ vs Hvs) in Hput as (payload & Hnone & Hsec).
      congruence.
    + cbn [is_ResourceNotFound]. intros Hput.
      apply (create_secret_put _ _ _ _ vs Hvs) in Hput as (payload & Hnone & Hsec).
      assert (secrets w1 !! arn = Some (put_versions token payload [AWSPENDING] vs)) as Hvs1
        by (rewrite Hsec; apply lookup_insert_eq).
      split.
      * eexists. split; [done|]. rewrite carriers_put. by rewrite bool_decide_true by set_solver.
      * eapply create_secret_already_pending; [done| |].
        -- rewrite lookup_version_put, Hnone. by rewrite bool_decide_true.
        -- done.
  - rewrite get_secret_value_unknown by done. cbn [is_ResourceNotFound].
    unfold bind, get_secret_dict. by rewrite get_secret_value_unknown.
Qed.

(** C5. When the token names no version yet (so that no AWSPENDING version
    with the token exists) and the secret has an AWSCURRENT version, Create
    stores one new version under the token, staged AWSPENDING, whose record is
    the AWSCURRENT record with only its password replaced by the password
    that [generate_password] returned: every other field is the same. *)
Theorem create_secret_new_pending (arn token : string) (w w2 : world) (vs : versions)
    (current : secret_version) (password : string) :
  secrets w !! arn = Some vs →
  lookup_version token vs = None →
  staged_version AWSCURRENT vs = Some current →
  generate_password 32 w = (Ok password, w2) →
  let payload := <["password" := JStr password]> (SecretString current) in
  let vs' := put_versions token payload [AWSPENDING] vs in
  create_secret arn token w = (Ok tt, set_secrets (<[arn := vs']> (secrets w)) w2) ∧
  lookup_version token vs'
    = Some {| SecretString := payload; VersionStages := [AWSPENDING] |} ∧
  carriers AWSPENDING vs' = [token] ∧
  payload !! "password" = Some (JStr password) ∧
  meets_policy password ∧
  (∀ key, key ≠ "password" → payload !! key = SecretString current !! key).
Proof.
  intros Hvs Hnone Hcur Hgen payload vs'. split_and!.
  - unfold create_secret, try_except, bind at 1.
    rewrite (get_secret_value_by_id _ _ _ _ _ Hvs), Hnone. cbn [is_ResourceNotFound].
    unfold bind, get_secret_dict.
    rewrite (get_secret_value_by_stage _ _ _ _ Hvs), Hcur, Hgen.
    pose proof (secrets_generate_password 32 w) as Hsec. rewrite Hgen in Hsec.
    cbn [snd] in Hsec. unfold put_secret_value. rewrite Hsec, Hvs, Hnone. done.
  - unfold vs'. rewrite lookup_version_put, Hnone. by rewrite bool_decide_true.
  - unfold vs'. rewrite carriers_put. by rewrite bool_decide_true by set_solver.
  - apply lookup_insert_eq.
  - exact (generate_password_returns_policy w password w2 Hgen).
  - intros key Hkey. by apply lookup_insert_ne.
Qed.


(** ** Test *)

(** C6. Test never changes a staging label: after any number of
    [test_secret] invocations, on any secrets and tokens, succeeding or
    failing, the store is what it was before the first one, and so is the
    version-to-labels mapping that [describe_secret] reports. *)
Theorem test_secret_never_relabels (probes : list (probe_behaviour * string * string))
    (w : world) :
  let w' := run_calls ((fun p => TestStep p.1.1 p.1.2 p.2) <$> probes) w in
  secrets w' = secrets w ∧ ∀ arn, (describe_secret arn w').1 = (describe_secret arn w).1.
Proof.
  cbn zeta.
  assert (secrets (run_calls ((fun p => TestStep p.1.1 p.1.2 p.2) <$> probes) w)
          = secrets w) as Hsec.
  { revert w. induction probes as [|[[db arn] token] probes IH]; intros w; [done|].
    rewrite fmap_cons. cbn [run_calls run_call fst snd]. rewrite IH.
    by apply (stable_test_secret (fun s => s = secrets w)). }
  split; [done|]. intros arn. unfold describe_secret. rewrite Hsec.
  by destruct (secrets w !! arn).
Qed.

Lemma open_connections_snoc j e :
  open_connections (j ++ [e]) =
  match e with
  | Connect => open_connections j + 1
  | ConnClose => open_connections j - 1
  | _ => open_connections j
  end%Z.
Proof. unfold open_connections. rewrite fold_left_app. by destruct e. Qed.

(** The probe connection is closed whenever the probe query itself runs:
    on success and when the fetched row is not the sentinel. *)
Lemma test_secret_closes_after_query db arn token w :
  execute_ok db = true →
  open_connections (journal (test_secret db arn token w).2) = open_connections (journal w).
Proof.
  intros Hex. unfold test_secret, bind, get_secret_dict.
  destruct (get_secret_value arn _ AWSPENDING w) as [[d|e] w1] eqn:Hget.
  2:{ apply (f_equal snd) in Hget. cbn [snd].
      unfold get_secret_value in Hget. repeat case_match; by simplify_eq/=. }
  assert (w1 = w) as ->.
  { unfold get_secret_value in Hget. repeat case_match; by simplify_eq/=. }
  unfold getitem.
  repeat (match goal with |- context [?d !! ?k] => destruct (d !! k) end;
          [unfold ret at 1|done]).
  rewrite Hex. destruct (connect_ok db); [|done]. unfold emit.
  assert (∀ w2 r, journal (check_sentinel r w2).2 = journal w2) as Hcheck.
  { intros w2 [[|x l]|]; cbn [check_sentinel]; try done. by destruct (x =? 1)%Z. }
  destruct (check_sentinel (fetched_row db) _) as [[[]|e] w3] eqn:Hc;
    apply (f_equal snd) in Hc; rewrite <- (f_equal journal Hc), Hcheck;
    cbn [journal record snd]; rewrite !open_connections_snoc; lia.
Qed.

(** C7 fails on the code.  When the database accepts the connection and the
    probe query raises, [test_secret] ends in the [except] clause with the
    connection still open: [conn.close()] is only reached after
    [fetchone]. *)
Lemma test_secret_leaks_probe_connection :
  (test_secret failing_query "S1" "tok1" S1_pending_world).1 = Raise OperationalError ∧
  journal (test_secret failing_query "S1" "tok1" S1_pending_world).2
    = [Connect; CursorOpen] ∧
  open_connections (journal (test_secret failing_query "S1" "tok1" S1_pending_world).2)
    = 1%Z.
Proof. by vm_compute. Qed.

(** ** The handler's guard *)

(** The guard of [lambda_handler] tests the keys of [VersionIdsToStages],
    that is the version ids: whatever the step, a secret none of whose
    version ids is the string AWSCURRENT is rejected before the dispatch. *)
Lemma lambda_handler_guard rds db event w vs :
  secrets w !! SecretId event = Some vs → "AWSCURRENT" ∉ vs.*1 →
  lambda_handler rds db event w
  = (Raise (ValueError ("Secret " +:+ SecretId event +:+ " has no AWSCURRENT version")), w).
Proof.
  intros Hvs Hid. unfold lambda_handler, bind, describe_secret. rewrite Hvs.
  unfold dict_contains. rewrite bool_decide_false; [done|].
  by rewrite <- list_fmap_compose.
Qed.

(** The everyday face of the guard: S1 has a version staged AWSCURRENT, and
    the handler rejects every step on it. *)
Lemma lambda_handler_rejects_current_secret rds db token step :
  lambda_handler rds db {| SecretId := "S1"; ClientRequestToken := token; Step := step |}
                 S1_world
  = (Raise (ValueError "Secret S1 has no AWSCURRENT version"), S1_world).
Proof.
  rewrite (lambda_handler_guard _ _ _ _ S1_versions); [done|done|].
  cbn. set_solver.
Qed.


(** ** The scenario, run *)

Lemma wf_store_singleton arn vs :
  NoDup vs.*1 → at_most_one AWSCURRENT vs → at_most_one AWSPENDING vs →
  wf_store {[arn := vs]}.
Proof.
  intros ??? arn' vs' [<- <-]%lookup_singleton_Some. done.
Qed.

Lemma wf_S1_world : wf_store (secrets S1_world).
Proof.
  apply wf_store_singleton; [apply NoDup_singleton | |]; unfold at_most_one;
    vm_compute; lia.
Qed.

Lemma create_S1_tok1 :
  create_secret "S1" "tok1" S1_world = (Ok tt, S1_pending_world).
Proof. by vm_compute. Qed.

Lemma secrets_S1_pending_world :
  secrets S1_pending_world !! "S1" = Some [("v1", {| SecretString := app_credentials;
                                                     VersionStages := [AWSCURRENT] |});
                                           ("tok1", tok1_version)].
Proof. by vm_compute. Qed.

Lemma wf_S1_pending_world : wf_store (secrets S1_pending_world).
Proof. apply (stable_create_secret "S1" "tok1" S1_world), wf_S1_world. Qed.

Lemma finish_S1_tok1 :
  finish_secret "S1" "tok1" S1_pending_world = (Ok tt, S1_finished_world).
Proof. by vm_compute. Qed.

(** The scenario of the spec, end to end: after Create, Set, Test and Finish
    the new record is the AWSCURRENT one, the old version has no label left,
    and the consumer saw one password change and one probe whose connection
    was closed. *)
Lemma rotation_S1_tok1 :
  secrets (run_calls [CreateStep "S1" "tok1"; SetStep true "S1" "tok1";
                      TestStep healthy_db "S1" "tok1"; FinishStep "S1" "tok1"]
                     S1_world) !! "S1"
  = Some [("v1", {| SecretString := app_credentials; VersionStages := [] |});
          ("tok1", {| SecretString := <["password" := JStr tok1_password]> app_credentials;
                      VersionStages := [AWSPENDING; AWSCURRENT] |})] ∧
  journal (run_calls [CreateStep "S1" "tok1"; SetStep true "S1" "tok1";
                      TestStep healthy_db "S1" "tok1"; FinishStep "S1" "tok1"]
                     S1_world)
  = [ModifyDbInstance (JStr tok1_password);
     Connect; CursorOpen; Execute; FetchOne; CursorClose; ConnClose].
Proof. by vm_compute. Qed.

Lemma label_uniqueness_invariant_witness :
  label_unique (secrets (run_calls [CreateStep "S1" "tok1"; SetStep true "S1" "tok1";
                                    TestStep healthy_db "S1" "tok1";
                                    FinishStep "S1" "tok1";
                                    Invoke true healthy_db
                                      {| SecretId := "S1"; ClientRequestToken := "tok2";
                                         Step := "createSecret" |}]
                                   S1_world)).
Proof. apply label_uniqueness_invariant. exact wf_S1_world. Defined.

Lemma create_secret_twice_witness :
  (∃ vs1, secrets S1_pending_world !! "S1" = Some vs1 ∧
          carriers AWSPENDING vs1 = ["tok1"]) ∧
  create_secret "S1" "tok1" S1_pending_world = (Ok tt, S1_pending_world).
Proof.
  apply (create_secret_twice "S1" "tok1" S1_world S1_pending_world).
  - exact wf_S1_world.
  - vm_compute. reflexivity.
Defined.

Lemma finish_secret_twice_witness :
  (∃ vs1, secrets S1_finished_world !! "S1" = Some vs1 ∧
          carriers AWSCURRENT vs1 = ["tok1"]) ∧
  finish_secret "S1" "tok1" S1_finished_world = (Ok tt, S1_finished_world).
Proof.
  destruct (finish_secret_twice "S1" "tok1" S1_pending_world S1_finished_world)
    as (H1 & H2 & _).
  - exact wf_S1_pending_world.
  - vm_compute. reflexivity.
  - exact (conj H1 H2).
Defined.


Lemma create_secret_new_pending_witness :
  create_secret "S1" "tok1" S1_world
  = (Ok tt,
     set_secrets (<["S1" := put_versions "tok1"
                              (<["password" := JStr tok1_password]> app_credentials)
                              [AWSPENDING] S1_versions]> (secrets S1_world))
                 (set_drawn 32 S1_world)) ∧
  (<["password" := JStr tok1_password]> app_credentials) !! "username" = Some (JStr "app").
Proof.
  destruct (create_secret_new_pending "S1" "tok1" S1_world (set_drawn 32 S1_world)
              S1_versions
              {| SecretString := app_credentials; VersionStages := [AWSCURRENT] |}
              tok1_password)
    as (Hcreate & _ & _ & _ & _ & Hother).
  - vm_compute. reflexivity.
  - vm_compute. reflexivity.
  - vm_compute. reflexivity.
  - vm_compute. reflexivity.
  - split; [exact Hcreate|]. rewrite Hother; [|discriminate]. vm_compute. reflexivity.
Defined.

(** * Further properties of the rotation code *)

(** ** Reads leave the world alone *)

Lemma get_secret_value_world arn id stage w r w' :
  get_secret_value arn id stage w = (r, w') → w' = w.
Proof.
  unfold get_secret_value. destruct (secrets w !! arn); [|by intros [= _ <-]].
  match goal with |- context [match ?f with Some _ => _ | None => _ end] => destruct f end;
    by intros [= _ <-].
Qed.

Lemma get_secret_value_raises arn id stage w e w' :
  get_secret_value arn id stage w = (Raise e, w') → e = ResourceNotFoundException.
Proof.
  unfold get_secret_value. destruct (secrets w !! arn); [|by intros [= <- _]].
  match goal with |- context [match ?f with Some _ => _ | None => _ end] => destruct f end;
    [done | by intros [= <- _]].
Qed.

Lemma get_secret_dict_world arn stage token w r w' :
  get_secret_dict arn stage token w = (r, w') → w' = w.
Proof. apply get_secret_value_world. Qed.

Lemma describe_secret_world arn w r w' :
  describe_secret arn w = (r, w') → w' = w.
Proof. unfold describe_secret. destruct (secrets w !! arn); by intros [= _ <-]. Qed.

(** ** The handler *)

(** X1. Whatever the step, [lambda_handler] does nothing on a secret none of
    whose version ids is the string AWSCURRENT, and on an unknown secret: it
    raises and leaves the store, the random source and the consumer
    untouched. *)
Theorem lambda_handler_inert_without_version_id (rds_accepts : bool)
    (db : probe_behaviour) (event : rotation_event) (w : world) :
  (∀ vs, secrets w !! SecretId event = Some vs → "AWSCURRENT" ∉ vs.*1) →
  ∃ e, lambda_handler rds_accepts db event w = (Raise e, w).
Proof.
  intros Hids. destruct (secrets w !! SecretId event) as [vs|] eqn:Hvs.
  - eexists. by apply (lambda_handler_guard _ _ _ _ vs), Hids.
  - exists ResourceNotFoundException.
    unfold lambda_handler, bind, describe_secret. by rewrite Hvs.
Qed.

Lemma lambda_handler_inert_without_version_id_witness :
  ∃ e, lambda_handler true healthy_db
         {| SecretId := "S1"; ClientRequestToken := "tok1"; Step := "createSecret" |}
         S1_world = (Raise e, S1_world).
Proof.
  apply lambda_handler_inert_without_version_id.
  intros vs Hvs. vm_compute in Hvs. injection Hvs as <-. cbn. set_solver.
Defined.



(** ** Set *)

(** X3. What [set_secret] does, whatever the input: when it returns, the
    database accepted exactly one password change, to the password of the
    AWSPENDING record that [get_secret_dict] returned for the token, and
    nothing else changed; when it raises, nothing changed at all, so the step
    can be invoked again from the same state. *)
Theorem set_secret_effect (rds_accepts : bool) (arn token : string) (w : world) :
  match set_secret rds_accepts arn token w with
  | (Ok _, w') =>
      rds_accepts = true ∧
      ∃ pending password,
        get_secret_dict arn AWSPENDING (Some token) w = (Ok pending, w) ∧
        pending !! "password" = Some password ∧
        w' = record (ModifyDbInstance password) w
  | (Raise _, w') => w' = w
  end.
Proof.
  unfold set_secret, bind.
  destruct (get_secret_dict arn AWSCURRENT None w) as [[cur|e] w1] eqn:Hcur;
    apply get_secret_dict_world in Hcur as Hw1; subst w1; [|done].
  destruct (get_secret_dict arn AWSPENDING (Some token) w) as [[pen|e] w1] eqn:Hpen;
    apply get_secret_dict_world in Hpen as Hw1; subst w1; [|done].
  unfold getitem. destruct (pen !! "password") as [p|] eqn:Hp; [|done].
  unfold ret. destruct rds_accepts; [|done]. unfold emit.
  split; [done|]. exists pen, p. split_and!; reflexivity || assumption.
Qed.

(** X4. [set_secret] reads the AWSCURRENT record first, although it never
    uses it: on a secret with no version staged AWSCURRENT it raises
    ResourceNotFoundException without reaching the database, even when the
    AWSPENDING version of the token is there and the database would accept
    the change. *)
Theorem set_secret_needs_current (rds_accepts : bool) (arn token : string)
    (w : world) (vs : versions) :
  secrets w !! arn = Some vs → staged_version AWSCURRENT vs = None →
  set_secret rds_accepts arn token w = (Raise ResourceNotFoundException, w).
Proof.
  intros Hvs Hcur. unfold set_secret, bind, get_secret_dict.
  by rewrite (get_secret_value_by_stage _ _ _ _ Hvs), Hcur.
Qed.

Lemma set_secret_needs_current_witness :
  get_secret_dict "S1" AWSPENDING (Some "AWSCURRENT") mislabelled_world
    = (Ok app_credentials, mislabelled_world) ∧
  set_secret true "S1" "AWSCURRENT" mislabelled_world
    = (Raise ResourceNotFoundException, mislabelled_world).
Proof.
  split; [vm_compute; reflexivity|].
  apply (set_secret_needs_current true "S1" "AWSCURRENT" mislabelled_world
           [("AWSCURRENT", {| SecretString := app_credentials;
                              VersionStages := [AWSPENDING] |})]).
  - vm_compute. reflexivity.
  - vm_compute. reflexivity.
Defined.


(** ** Test *)

(** X5. [test_secret] returns normally exactly when the AWSPENDING record of
    the token can be read, holds the five connection fields, the database
    accepts the connection and the query, and the first column of the row
    fetched is 1. *)
Theorem test_secret_returns_iff (db : probe_behaviour) (arn token : string) (w : world) :
  (test_secret db arn token w).1 = Ok tt ↔
  ∃ pending,
    get_secret_dict arn AWSPENDING (Some token) w = (Ok pending, w) ∧
    (∀ key, key ∈ probe_fields → is_Some (pending !! key)) ∧
    connect_ok db = true ∧ execute_ok db = true ∧
    ∃ rest, fetched_row db = Some (1%Z :: rest).
Proof.
  unfold test_secret, bind. split.
  - destruct (get_secret_dict arn AWSPENDING (Some token) w) as [[d|e] w1] eqn:Hget;
      apply get_secret_dict_world in Hget as Hw1; subst w1; [|done].
    unfold getitem.
    destruct (d !! "host") eqn:Hhost; [unfold ret at 1|done].
    destruct (d !! "port") eqn:Hport; [unfold ret at 1|done].
    destruct (d !! "dbname") eqn:Hdb; [unfold ret at 1|done].
    destruct (d !! "username") eqn:Huser; [unfold ret at 1|done].
    destruct (d !! "password") eqn:Hpw; [unfold ret at 1|done].
    destruct (connect_ok db); [|done]. destruct (execute_ok db); [|done].
    unfold emit. destruct (fetched_row db) as [[|x rest]|]; cbn [check_sentinel]; try done.
    destruct (x =? 1)%Z eqn:Hx; [|done]. apply Z.eqb_eq in Hx as ->. intros _.
    exists d. split_and!; [done| |done|done|by exists rest].
    intros key. unfold probe_fields. rewrite !elem_of_cons, elem_of_nil.
    intros [->|[->|[->|[->|[->|[]]]]]]; eauto.
  - intros (d & -> & Hkeys & -> & -> & rest & ->). unfold getitem, probe_fields in *.
    destruct (Hkeys "host") as [? ->]; [set_solver|].
    destruct (Hkeys "port") as [? ->]; [set_solver|].
    destruct (Hkeys "dbname") as [? ->]; [set_solver|].
    destruct (Hkeys "username") as [? ->]; [set_solver|].
    destruct (Hkeys "password") as [? ->]; [set_solver|].
    reflexivity.
Qed.




(** ** What a step can write *)

Lemma put_secret_value_raise arn token payload stages w e w' :
  put_secret_value arn token payload stages w = (Raise e, w') →
  w' = w ∧ (e = ResourceNotFoundException ∨ e = ResourceExistsException).
Proof.
  unfold put_secret_value. destruct (secrets w !! arn) as [vs|];
    [destruct (lookup_version token vs)|]; intros [= <- <-]; eauto.
Qed.

Lemma update_secret_version_stage_shape arn stage token remove_from w r w' :
  update_secret_version_stage arn stage token remove_from w = (r, w') →
  (w' = w ∧ ∃ e, r = Raise e) ∨
  (r = Ok tt ∧ ∃ vs, secrets w !! arn = Some vs ∧ is_Some (lookup_version token vs) ∧
                     label_left_behind stage token remove_from vs = false ∧
                     w' = set_secrets (<[arn := move_stage stage token remove_from vs]>
                                         (secrets w)) w).
Proof.
  unfold update_secret_version_stage.
  destruct (secrets w !! arn) as [vs|] eqn:Hvs; [|intros [= <- <-]; eauto].
  destruct (lookup_version token vs) as [v|] eqn:Htok; [|intros [= <- <-]; eauto].
  match goal with |- context [if ?c then _ else _] => destruct c eqn:Hc end;
    intros [= <- <-]; [|eauto].
  apply andb_true_iff in Hc as [_ Hleft]. apply negb_true_iff in Hleft.
  right. split; [done|]. exists vs. split_and!; [done|by exists v|done|done].
Qed.

Lemma generate_password_world n w :
  ∃ k, (generate_password n w).2 = set_drawn (drawn w + k * n) w.
Proof.
  unfold generate_password.
  pose proof (generate_password_at_spec (recursion_limit w) n w) as H.
  destruct (generate_password_at (recursion_limit w) n w) as [[pw|e] w'].
  - destruct H as (k & _ & _ & _ & _ & ->). by exists (S k).
  - destruct H as (_ & _ & ->). by eexists.
Qed.

Lemma generate_password_raises n w e w' :
  generate_password n w = (Raise e, w') → e = RecursionError.
Proof.
  unfold generate_password. intros Hgen.
  pose proof (generate_password_at_spec (recursion_limit w) n w) as H.
  rewrite Hgen in H. by destruct H.
Qed.

(** What [create_secret] leaves behind: the journal is never touched; the
    store is either untouched or has gained one version under the token. *)
Lemma create_secret_shape arn token w r w' :
  create_secret arn token w = (r, w') →
  journal w' = journal w ∧
  ((secrets w' = secrets w ∧
    (r = Ok tt ∨ r = Raise ResourceNotFoundException ∨ r = Raise RecursionError
     ∨ r = Raise ResourceExistsException)) ∨
   (r = Ok tt ∧ ∃ vs payload,
      secrets w !! arn = Some vs ∧ lookup_version token vs = None ∧
      secrets w' = <[arn := put_versions token payload [AWSPENDING] vs]> (secrets w))).
Proof.
  unfold create_secret, try_except, bind.
  destruct (get_secret_value arn (Some token) AWSPENDING w) as [[d|e] w1] eqn:Hget;
    apply get_secret_value_world in Hget as Hw1; subst w1.
  { intros [= <- <-]. split; [done|]. left. eauto. }
  apply get_secret_value_raises in Hget as ->. cbn [is_ResourceNotFound].
  destruct (get_secret_dict arn AWSCURRENT None w) as [[cur|e] w1] eqn:Hcur;
    apply get_secret_dict_world in Hcur as Hw1; subst w1.
  2:{ apply get_secret_value_raises in Hcur as ->. intros [= <- <-].
      split; [done|]. left. eauto. }
  destruct (generate_password_world 32 w) as [k Hk].
  destruct (generate_password 32 w) as [[pw|e] w2] eqn:Hgen; cbn [snd] in Hk; subst w2.
  2:{ apply generate_password_raises in Hgen as ->. intros [= <- <-].
      split; [done|]. left. eauto. }
  destruct (put_secret_value arn token _ [AWSPENDING] _) as [[[]|e] w3] eqn:Hput;
    intros [= <- <-].
  - apply put_secret_value_ok in Hput as (vs & Hvs & Hnone & ->).
    split; [done|]. right. split; [done|]. eauto.
  - apply put_secret_value_raise in Hput as [-> [-> | ->]]; split; try done; left; eauto.
Qed.

(** What [finish_secret] leaves behind: nothing on failure, and otherwise at
    most one move of AWSCURRENT. *)
Lemma finish_secret_shape arn token w r w' :
  finish_secret arn token w = (r, w') →
  w' = w ∨
  (r = Ok tt ∧ ∃ vs remove_from,
     secrets w !! arn = Some vs ∧ is_Some (lookup_version token vs) ∧
     label_left_behind AWSCURRENT token remove_from vs = false ∧
     w' = set_secrets (<[arn := move_stage AWSCURRENT token remove_from vs]> (secrets w)) w).
Proof.
  unfold finish_secret, bind.
  destruct (describe_secret arn w) as [[d|e] w1] eqn:Hd;
    apply describe_secret_world in Hd as Hw1; subst w1; [|intros [= _ <-]; by left].
  destruct (scan_versions token d) as [|c]; [intros [= _ <-]; by left|].
  intros Hup. apply update_secret_version_stage_shape in Hup as [[-> _]|(-> & vs & ?)];
    [by left|]. right. split; [done|]. by exists vs, c.
Qed.



(** X8. Create draws no password and writes nothing when there is nothing to
    copy: on an unknown secret, and on a secret that has neither the token's
    AWSPENDING version nor any version staged AWSCURRENT, [create_secret]
    raises ResourceNotFoundException and the world, random source included,
    is unchanged. *)
Theorem create_secret_without_current (arn token : string) (w : world) :
  (∀ vs, secrets w !! arn = Some vs →
     staged_version AWSCURRENT vs = None ∧
     ∀ v, lookup_version token vs = Some v → has_stage AWSPENDING v = false) →
  create_secret arn token w = (Raise ResourceNotFoundException, w).
Proof.
  intros H. unfold create_secret, try_except, bind.
  assert (get_secret_dict arn AWSCURRENT None w = (Raise ResourceNotFoundException, w))
    as Hdict.
  { unfold get_secret_dict. destruct (secrets w !! arn) as [vs|] eqn:Hvs.
    - destruct (H vs eq_refl) as [Hcur _].
      by rewrite (get_secret_value_by_stage _ _ _ _ Hvs), Hcur.
    - by rewrite get_secret_value_unknown. }
  destruct (secrets w !! arn) as [vs|] eqn:Hvs.
  - destruct (H vs eq_refl) as [_ Hpen].
    rewrite (get_secret_value_by_id _ _ _ _ _ Hvs).
    destruct (lookup_version token vs) as [v|];
      [rewrite (Hpen v eq_refl)|]; cbn [is_ResourceNotFound]; by rewrite Hdict.
  - rewrite get_secret_value_unknown by done. cbn [is_ResourceNotFound]. by rewrite Hdict.
Qed.

Lemma create_secret_without_current_witness :
  create_secret "S1" "tok1" mislabelled_world
  = (Raise ResourceNotFoundException, mislabelled_world).
Proof.
  apply create_secret_without_current. intros vs Hvs.
  vm_compute in Hvs. injection Hvs as <-. split; [reflexivity|]. intros v Hv.
  vm_compute in Hv. discriminate.
Defined.



(** X10. A failed Finish leaves the world exactly as it was: the labels are
    either moved by the one store update or not touched at all. *)
Theorem finish_secret_failure_atomic (arn token : string) (w w' : world) (e : exn) :
  finish_secret arn token w = (Raise e, w') → w' = w.
Proof.
  intros Hf. by apply finish_secret_shape in Hf as [?|[? _]].
Qed.

Lemma finish_secret_failure_atomic_witness :
  (finish_secret "S1" "tok1" mislabelled_world).2 = mislabelled_world.
Proof.
  apply (finish_secret_failure_atomic "S1" "tok1" mislabelled_world _
           ResourceNotFoundException).
  vm_compute. reflexivity.
Defined.


(** ** Every call is at most one write *)

Lemma store_step_create_secret arn token w :
  store_step arn (secrets w) (secrets (create_secret arn token w).2).
Proof.
  destruct (create_secret arn token w) as [r w'] eqn:Hc. cbn [snd].
  apply create_secret_shape in Hc as [_ [[-> _]|(_ & vs & payload & Hvs & Hnone & ->)]].
  - apply step_none.
  - by apply step_put.
Qed.

Lemma store_step_finish_secret arn token w :
  store_step arn (secrets w) (secrets (finish_secret arn token w).2).
Proof.
  destruct (finish_secret arn token w) as [r w'] eqn:Hf. cbn [snd].
  apply finish_secret_shape in Hf as [->|(_ & vs & c & Hvs & Htok & Hleft & ->)].
  - apply step_none.
  - by apply step_move.
Qed.

Lemma store_step_set_secret rds arn token w :
  store_step arn (secrets w) (secrets (set_secret rds arn token w).2).
Proof.
  rewrite (stable_set_secret (fun s => s = secrets w) rds arn token w eq_refl).
  apply step_none.
Qed.

Lemma store_step_test_secret db arn token w :
  store_step arn (secrets w) (secrets (test_secret db arn token w).2).
Proof.
  rewrite (stable_test_secret (fun s => s = secrets w) db arn token w eq_refl).
  apply step_none.
Qed.

Lemma store_step_run_call c w :
  store_step (call_secret c) (secrets w) (secrets (run_call c w).2).
Proof.
  destruct c as [rds db event|arn token|rds arn token|db arn token|arn token];
    cbn [run_call call_secret];
    [|apply store_step_create_secret|apply store_step_set_secret
     |apply store_step_test_secret|apply store_step_finish_secret].
  unfold lambda_handler, bind.
  destruct (describe_secret (SecretId event) w) as [[d|e] w1] eqn:Hd;
    apply describe_secret_world in Hd as Hw1; subst w1; [|apply step_none].
  destruct (negb _); [apply step_none|].
  repeat (case_bool_decide;
          [first [apply store_step_create_secret | apply store_step_set_secret
                 | apply store_step_test_secret | apply store_step_finish_secret]|]).
  apply step_none.
Qed.

(** X11. Whatever the call, through the handler or to a step function, it
    makes at most one write to the store, and only to the secret it names:
    either it appends one version staged AWSPENDING under a token that named
    no version, or it moves AWSCURRENT onto an existing version, or it writes
    nothing. *)
Theorem each_call_is_one_write (c : call) (w : world) :
  store_step (call_secret c) (secrets w) (secrets (run_call c w).2).
Proof. apply store_step_run_call. Qed.

Lemma payloads_put token payload stages vs :
  payloads (put_versions token payload stages vs) = payloads vs ++ [(token, payload)].
Proof.
  unfold payloads, put_versions. rewrite fmap_app, <- list_fmap_compose. done.
Qed.

Lemma payloads_move stage token remove_from vs :
  payloads (move_stage stage token remove_from vs) = payloads vs.
Proof.
  unfold payloads, move_stage. rewrite <- list_fmap_compose.
  apply list_fmap_ext. intros _ [i v] _. cbn. by repeat case_bool_decide.
Qed.

Lemma store_step_payloads arn s s' a vs :
  store_step arn s s' → s !! a = Some vs →
  ∃ vs', s' !! a = Some vs' ∧ payloads vs `prefix_of` payloads vs'.
Proof.
  intros Hstep Ha. destruct Hstep as [s|s vs0 token payload Hvs0 _|s vs0 token c Hvs0 _ _].
  - by exists vs.
  - destruct (decide (arn = a)) as [->|Hne].
    + rewrite lookup_insert_eq. eexists. split; [done|].
      rewrite payloads_put. replace vs0 with vs by congruence. by apply prefix_app_r.
    + rewrite lookup_insert_ne by done. by exists vs.
  - destruct (decide (arn = a)) as [->|Hne].
    + rewrite lookup_insert_eq. eexists. split; [done|].
      rewrite payloads_move. by replace vs0 with vs by congruence.
    + rewrite lookup_insert_ne by done. by exists vs.
Qed.

Lemma store_step_other arn s s' a :
  store_step arn s s' → a ≠ arn → s' !! a = s !! a.
Proof.
  intros [s0|s0 ????|s0 ?????] Hne; [done|by rewrite lookup_insert_ne..].
Qed.

(** X12. No version is ever deleted or rewritten: after any sequence of
    calls, every secret still has all the versions it had, in the same order
    and with the same records; versions are only appended. *)
Theorem versions_are_only_appended (cs : list call) (w : world) (arn : string)
    (vs : versions) :
  secrets w !! arn = Some vs →
  ∃ vs', secrets (run_calls cs w) !! arn = Some vs' ∧
         payloads vs `prefix_of` payloads vs'.
Proof.
  revert w vs. induction cs as [|c cs IH]; intros w vs Hvs; cbn [run_calls].
  - by exists vs.
  - destruct (store_step_payloads _ _ _ arn vs (store_step_run_call c w) Hvs)
      as (vs1 & Hvs1 & Hpre1).
    destruct (IH _ _ Hvs1) as (vs2 & Hvs2 & Hpre2).
    exists vs2. split; [done|]. by etrans.
Qed.

Lemma versions_are_only_appended_witness :
  ∃ vs', secrets (run_calls [CreateStep "S1" "tok1"; SetStep true "S1" "tok1";
                             TestStep healthy_db "S1" "tok1"; FinishStep "S1" "tok1"]
                            S1_world) !! "S1" = Some vs' ∧
         payloads S1_versions `prefix_of` payloads vs'.
Proof.
  apply versions_are_only_appended. vm_compute. reflexivity.
Defined.

(** X13. Calls about other secrets never touch a secret: after any sequence
    of calls none of which names it, its versions and labels are what they
    were. *)
Theorem other_secrets_untouched (cs : list call) (w : world) (arn : string) :
  Forall (fun c => call_secret c ≠ arn) cs →
  secrets (run_calls cs w) !! arn = secrets w !! arn.
Proof.
  revert w. induction cs as [|c cs IH]; intros w Hcs; cbn [run_calls]; [done|].
  apply Forall_cons in Hcs as [Hc Hcs]. rewrite IH by done.
  apply (store_step_other (call_secret c)); [apply store_step_run_call|done].
Qed.

Lemma other_secrets_untouched_witness :
  secrets (run_calls [CreateStep "S2" "tok1"; FinishStep "S2" "tok1";
                      Invoke true healthy_db
                        {| SecretId := "S3"; ClientRequestToken := "tok1";
                           Step := "createSecret" |}]
                     S1_world) !! "S1" = secrets S1_world !! "S1".
Proof.
  apply other_secrets_untouched.
  repeat (apply Forall_cons; split; [cbn; discriminate|]). apply Forall_nil_2.
Defined.

(** X14. Create never moves AWSCURRENT and Finish never moves AWSPENDING:
    whatever their outcome, the carriers of the other label are, for every
    secret, what they were.  In particular Finish asks for no change to
    AWSPENDING, and the version it promotes keeps that label. *)
Theorem steps_keep_the_other_label (arn token : string) (w : world) :
  carriers AWSCURRENT <$> secrets (create_secret arn token w).2
    = carriers AWSCURRENT <$> secrets w ∧
  carriers AWSPENDING <$> secrets (finish_secret arn token w).2
    = carriers AWSPENDING <$> secrets w.
Proof.
  split.
  - destruct (create_secret arn token w) as [r w'] eqn:Hc. cbn [snd].
    apply create_secret_shape in Hc as [_ [[-> _]|(_ & vs & payload & Hvs & Hnone & ->)]];
      [done|]. rewrite fmap_insert, carriers_put.
    rewrite bool_decide_false by (unfold AWSCURRENT, AWSPENDING; set_solver).
    apply insert_id. by rewrite lookup_fmap, Hvs.
  - destruct (finish_secret arn token w) as [r w'] eqn:Hf. cbn [snd].
    apply finish_secret_shape in Hf as [->|(_ & vs & c & Hvs & Htok & Hleft & ->)];
      [done|]. cbn [secrets set_secrets]. rewrite fmap_insert.
    rewrite carriers_move_other by done.
    apply insert_id. by rewrite lookup_fmap, Hvs.
Qed.


(** ** More on the password generator *)

Lemma length_characters : String.length characters = 70.
Proof. by vm_compute. Qed.

Lemma choice_in_characters r :
  char_in (match String.get (r mod String.length characters) characters with
           | Some c => c
           | None => zero
           end) characters = true.
Proof.
  rewrite length_characters.
  pose proof (Nat.mod_upper_bound r 70) as Hlt.
  generalize dependent (r mod 70). intros i Hlt.
  do 70 (destruct i as [|i]; [by vm_compute|]). lia.
Qed.

Lemma random_choice_in_characters w c w' :
  random_choice characters w = (Ok c, w') → char_in c characters = true.
Proof.
  unfold random_choice. intros Hc.
  assert (c = match String.get (entropy w (drawn w) mod String.length characters)
                               characters with
              | Some c => c
              | None => zero
              end) as -> by congruence.
  apply choice_in_characters.
Qed.

Lemma sample_in_characters n w s w' :
  sample n w = (Ok s, w') → any (fun c => negb (char_in c characters)) s = false.
Proof.
  revert w s w'. induction n as [|n IH]; intros w s w'; cbn [sample].
  - by intros [= <- _].
  - unfold bind at 1.
    destruct (random_choice characters w) as [[c|e] w1] eqn:Hc; [|done].
    unfold bind. destruct (sample n w1) as [[rest|e] w2] eqn:Hrest; [|done].
    intros [= <- _]. cbn [any].
    by rewrite (random_choice_in_characters _ _ _ Hc), (IH _ _ _ Hrest).
Qed.

Lemma candidate_in_characters n k w :
  any (fun c => negb (char_in c characters)) (candidate n k w) = false.
Proof.
  unfold candidate.
  destruct (sample n (set_drawn (drawn w + k * n) w)) as [[s|e] w'] eqn:Hs; [|done].
  by eapply sample_in_characters.
Qed.

(** X15. For every length, a password that [generate_password] returns has
    exactly that length, consists only of characters of the alphabet
    (letters, digits and the eight symbols) and meets the complexity
    requirement. *)
Theorem generate_password_returns_from_alphabet (length : nat) (w w' : world)
    (password : string) :
  generate_password length w = (Ok password, w') →
  String.length password = length ∧
  any (fun c => negb (char_in c characters)) password = false ∧
  complexity password = true.
Proof.
  unfold generate_password. intros Hgen.
  pose proof (generate_password_at_spec (recursion_limit w) length w) as H.
  rewrite Hgen in H. destruct H as (k & _ & _ & Hgood & -> & _).
  split_and!; [apply candidate_length | apply candidate_in_characters | exact Hgood].
Qed.

Lemma generate_password_returns_from_alphabet_witness :
  String.length tok1_password = 32 ∧
  any (fun c => negb (char_in c characters)) tok1_password = false ∧
  complexity tok1_password = true.
Proof.
  apply (generate_password_returns_from_alphabet 32 S1_world (set_drawn 32 S1_world)).
  vm_compute. reflexivity.
Defined.

(** No character belongs to two of the four classes. *)
Lemma char_classes_disjoint c :
  Nat.b2n (islower c) + Nat.b2n (isupper c) + Nat.b2n (isdigit c)
  + Nat.b2n (char_in c symbols) ≤ 1.
Proof.
  destruct c as [[] [] [] [] [] [] [] []]; vm_compute; lia.
Qed.

Lemma classes_need_characters s :
  Nat.b2n (any islower s) + Nat.b2n (any isupper s) + Nat.b2n (any isdigit s)
  + Nat.b2n (any (fun c => char_in c symbols) s) ≤ String.length s.
Proof.
  induction s as [|c s IH]; [cbn; lia|]. cbn [any String.length].
  pose proof (char_classes_disjoint c) as Hc.
  destruct (islower c), (isupper c), (isdigit c), (char_in c symbols),
    (any islower s), (any isupper s), (any isdigit s),
    (any (fun c => char_in c symbols) s); cbn in *; lia.
Qed.

Lemma complexity_needs_four s : complexity s = true → 4 ≤ String.length s.
Proof.
  unfold complexity. rewrite !andb_true_iff. intros [[[H1 H2] H3] H4].
  pose proof (classes_need_characters s) as H. rewrite H1, H2, H3, H4 in H.
  cbn in H. lia.
Qed.

(** X16. A length below 4 can never be served: four classes need four
    characters, so [generate_password] rejects every candidate, uses up the
    recursion limit and ends with RecursionError, whatever the random
    source. *)
Theorem generate_password_too_short (length : nat) (w : world) :
  length < 4 →
  generate_password length w
  = (Raise RecursionError, set_drawn (drawn w + recursion_limit w * length) w).
Proof.
  intros Hlen. unfold generate_password.
  pose proof (generate_password_at_spec (recursion_limit w) length w) as H.
  destruct (generate_password_at (recursion_limit w) length w) as [[pw|e] w'].
  - destruct H as (k & _ & _ & Hgood & _ & _).
    apply complexity_needs_four in Hgood. rewrite candidate_length in Hgood. lia.
  - by destruct H as (-> & _ & ->).
Qed.

Lemma generate_password_too_short_witness :
  generate_password 3 S1_world = (Raise RecursionError, set_drawn 15 S1_world).
Proof.
  apply (generate_password_too_short 3 S1_world). lia.
Defined.


(** ** A whole rotation *)

Lemma staged_version_carriers stage vs :
  NoDup vs.*1 →
  staged_version stage vs =
  match carriers stage vs with
  | [] => None
  | id :: _ => lookup_version id vs
  end.
Proof.
  induction vs as [|[i v] vs IH]; [done|]. rewrite fmap_cons, NoDup_cons.
  intros [Hi Hnd]. cbn [staged_version]. rewrite carriers_cons.
  destruct (has_stage stage v) eqn:Hv.
  - cbn [lookup_version]. by rewrite bool_decide_true.
  - rewrite IH by done. destruct (carriers stage vs) as [|id rest] eqn:Hc; [done|].
    cbn [lookup_version]. rewrite bool_decide_false; [done|].
    intros ->. apply Hi. apply (elem_of_carriers stage). rewrite Hc. set_solver.
Qed.










Lemma carrier_of_label stage key vs :
  NoDup vs.*1 → key ∈ carriers stage vs →
  ∃ v, lookup_version key vs = Some v ∧ has_stage stage v = true.
Proof.
  induction vs as [|[i u] vs IH]; [set_solver|].
  rewrite fmap_cons, carriers_cons, NoDup_cons. cbn [lookup_version fst].
  intros [Hi Hnd] Hin. case_bool_decide as Heq.
  - subst. destruct (has_stage stage u) eqn:Hu; [eauto|].
    by apply elem_of_carriers in Hin.
  - destruct (has_stage stage u); [|by apply IH].
    apply elem_of_cons in Hin as [?|?]; [congruence | by apply IH].
Qed.


(** ** The empty token *)

(** X18. An empty token is not rejected: [get_secret_dict] drops it and
    reads by label alone, so with the empty token Set and Test act on
    whichever version is staged AWSPENDING, exactly as if they had been given
    that version's own token. *)
Theorem empty_token_reads_by_label (arn stage token : string) (w : world)
    (vs : versions) (rest : list string) (rds_accepts : bool) (db : probe_behaviour) :
  secrets w !! arn = Some vs → NoDup vs.*1 →
  token ≠ "" → carriers stage vs = token :: rest →
  get_secret_dict arn stage (Some "") w = get_secret_dict arn stage (Some token) w ∧
  (stage = AWSPENDING →
   set_secret rds_accepts arn "" w = set_secret rds_accepts arn token w ∧
   test_secret db arn "" w = test_secret db arn token w).
Proof.
  intros Hvs Hnd Htok Hc.
  assert (get_secret_dict arn stage (Some "") w = get_secret_dict arn stage (Some token) w)
    as Heq.
  { unfold get_secret_dict.
    rewrite (bool_decide_true ("" = "")) by done.
    rewrite (bool_decide_false (token = "")) by done.
    rewrite (get_secret_value_by_stage _ _ _ _ Hvs), (get_secret_value_by_id _ _ _ _ _ Hvs).
    rewrite staged_version_carriers, Hc by done.
    destruct (carrier_of_label stage token vs) as (v & -> & ->); [done| |done].
    rewrite Hc. set_solver. }
  split; [done|]. intros ->. split.
  - unfold set_secret, bind.
    destruct (get_secret_dict arn AWSCURRENT None w) as [[cur|e] w1] eqn:Hcur;
      apply get_secret_dict_world in Hcur as Hw1; subst w1; [|done].
    by rewrite Heq.
  - unfold test_secret, bind. by rewrite Heq.
Qed.

Lemma empty_token_reads_by_label_witness :
  get_secret_dict "S1" AWSPENDING (Some "") S1_pending_world
    = get_secret_dict "S1" AWSPENDING (Some "tok1") S1_pending_world ∧
  (AWSPENDING = AWSPENDING →
   set_secret true "S1" "" S1_pending_world = set_secret true "S1" "tok1" S1_pending_world ∧
   test_secret healthy_db "S1" "" S1_pending_world
     = test_secret healthy_db "S1" "tok1" S1_pending_world).
Proof.
  apply (empty_token_reads_by_label "S1" AWSPENDING "tok1" S1_pending_world
           [("v1", {| SecretString := app_credentials; VersionStages := [AWSCURRENT] |});
            ("tok1", tok1_version)] []).
  - vm_compute. reflexivity.
  - vm_compute. repeat constructor; set_solver.
  - discriminate.
  - vm_compute. reflexivity.
Defined.

(** ** Probe connections over time *)

Lemma open_connections_test_secret db arn token w :
  (open_connections (journal w)
   ≤ open_connections (journal (test_secret db arn token w).2)
   ≤ open_connections (journal w) + 1)%Z.
Proof.
  destruct (execute_ok db) eqn:Hex.
  { rewrite test_secret_closes_after_query by done. lia. }
  unfold test_secret, bind, get_secret_dict.
  destruct (get_secret_value arn _ AWSPENDING w) as [[d|e] w1] eqn:Hget;
    apply get_secret_value_world in Hget as Hw1; subst w1; [|cbn [snd]; lia].
  unfold getitem, raise.
  destruct (d !! "host"); [unfold ret|cbn [snd]; lia].
  destruct (d !! "port"); [unfold ret|cbn [snd]; lia].
  destruct (d !! "dbname"); [unfold ret|cbn [snd]; lia].
  destruct (d !! "username"); [unfold ret|cbn [snd]; lia].
  destruct (d !! "password"); [unfold ret|cbn [snd]; lia].
  rewrite Hex. unfold emit. destruct (connect_ok db); [|cbn [snd]; lia].
  cbn [snd journal record]. rewrite !open_connections_snoc. lia.
Qed.

Lemma journal_set_secret rds arn token w :
  open_connections (journal (set_secret rds arn token w).2) = open_connections (journal w).
Proof.
  unfold set_secret, bind.
  destruct (get_secret_dict arn AWSCURRENT None w) as [[cur|e] w1] eqn:Hcur;
    apply get_secret_dict_world in Hcur as Hw1; subst w1; [|done].
  destruct (get_secret_dict arn AWSPENDING (Some token) w) as [[pen|e] w1] eqn:Hpen;
    apply get_secret_dict_world in Hpen as Hw1; subst w1; [|done].
  unfold getitem. destruct (pen !! "password") as [p|]; [|done].
  unfold ret. destruct rds; [|done]. unfold emit. cbn [snd journal record].
  by rewrite open_connections_snoc.
Qed.

Lemma open_connections_run_call c w :
  (open_connections (journal w)
   ≤ open_connections (journal (run_call c w).2)
   ≤ open_connections (journal w) + 1)%Z.
Proof.
  assert (∀ arn token, journal (create_secret arn token w).2 = journal w) as Hcreate.
  { intros arn token. destruct (create_secret arn token w) as [r w'] eqn:Hc.
    by apply create_secret_shape in Hc as [? _]. }
  assert (∀ arn token, journal (finish_secret arn token w).2 = journal w) as Hfinish.
  { intros arn token. destruct (finish_secret arn token w) as [r w'] eqn:Hf.
    by apply finish_secret_shape in Hf as [->|(_ & vs & c' & _ & _ & _ & ->)]. }
  destruct c as [rds db event|arn token|rds arn token|db arn token|arn token];
    cbn [run_call].
  - unfold lambda_handler, bind, raise.
    destruct (describe_secret (SecretId event) w) as [[d|e] w1] eqn:Hd;
      apply describe_secret_world in Hd as Hw1; subst w1; [|cbn [snd]; lia].
    destruct (negb _); [cbn [snd]; lia|].
    repeat (case_bool_decide;
            [first [rewrite Hcreate; lia | rewrite journal_set_secret; lia
                   | apply open_connections_test_secret | rewrite Hfinish; lia]|]).
    cbn [snd]. lia.
  - rewrite Hcreate. lia.
  - rewrite journal_set_secret. lia.
  - apply open_connections_test_secret.
  - rewrite Hfinish. lia.
Qed.

(** X19. No call ever closes a probe connection that an earlier call left
    open: over any sequence of calls the number of open probe connections
    never goes down, and it goes up by at most one per call. *)
Theorem open_connections_never_decrease (cs : list call) (w : world) :
  (open_connections (journal w)
   ≤ open_connections (journal (run_calls cs w))
   ≤ open_connections (journal w) + Z.of_nat (length cs))%Z.
Proof.
  revert w. induction cs as [|c cs IH]; intros w; cbn [run_calls length]; [lia|].
  pose proof (open_connections_run_call c w). specialize (IH (run_call c w).2). lia.
Qed.


(** X20. The one way [test_secret] leaves a connection open: the number of
    open probe connections grows by one when the AWSPENDING record is read
    and complete, the database accepts the connection and the probe query
    raises; in every other case, success and sentinel mismatch included, it
    is what it was before the call. *)
Theorem test_secret_connection_balance (db : probe_behaviour) (arn token : string)
    (w : world) :
  let leaks :=
    ∃ pending, get_secret_dict arn AWSPENDING (Some token) w = (Ok pending, w) ∧
               (∀ key, key ∈ probe_fields → is_Some (pending !! key)) ∧
               connect_ok db = true ∧ execute_ok db = false in
  (leaks → open_connections (journal (test_secret db arn token w).2)
           = (open_connections (journal w) + 1)%Z) ∧
  (¬ leaks → open_connections (journal (test_secret db arn token w).2)
             = open_connections (journal w)).
Proof.
  cbn zeta. split.
  - intros (d & Hget & Hkeys & Hconn & Hexec). unfold test_secret, bind.
    rewrite Hget. unfold getitem, probe_fields in *.
    destruct (Hkeys "host") as [? ->]; [set_solver|].
    destruct (Hkeys "port") as [? ->]; [set_solver|].
    destruct (Hkeys "dbname") as [? ->]; [set_solver|].
    destruct (Hkeys "username") as [? ->]; [set_solver|].
    destruct (Hkeys "password") as [? ->]; [set_solver|].
    rewrite Hconn, Hexec. unfold ret, emit, raise. cbn [snd journal record].
    rewrite !open_connections_snoc. lia.
  - intros Hno. destruct (execute_ok db) eqn:Hexec.
    { by apply test_secret_closes_after_query. }
    unfold test_secret, bind.
    destruct (get_secret_dict arn AWSPENDING (Some token) w) as [[d|e] w1] eqn:Hget;
      apply get_secret_dict_world in Hget as Hw1; subst w1; [|done].
    unfold getitem, raise.
    destruct (d !! "host") eqn:Hhost; [unfold ret at 1|done].
    destruct (d !! "port") eqn:Hport; [unfold ret at 1|done].
    destruct (d !! "dbname") eqn:Hdb; [unfold ret at 1|done].
    destruct (d !! "username") eqn:Huser; [unfold ret at 1|done].
    destruct (d !! "password") eqn:Hpw; [unfold ret at 1|done].
    destruct (connect_ok db) eqn:Hconn; [|done].
    exfalso. apply Hno. exists d. split_and!; [done| |done|done].
    intros key. unfold probe_fields. rewrite !elem_of_cons, elem_of_nil.
    intros [->|[->|[->|[->|[->|[]]]]]]; eauto.
Qed.

Lemma test_secret_connection_balance_witness :
  open_connections (journal (test_secret failing_query "S1" "tok1" S1_pending_world).2)
  = (open_connections (journal S1_pending_world) + 1)%Z.
Proof.
  apply (proj1 (test_secret_connection_balance failing_query "S1" "tok1" S1_pending_world)).
  exists (SecretString tok1_version). split_and!.
  - vm_compute. reflexivity.
  - intros key Hkey. unfold probe_fields in Hkey.
    rewrite !elem_of_cons, elem_of_nil in Hkey.
    destruct Hkey as [->|[->|[->|[->|[->|[]]]]]]; vm_compute; eauto.
  - reflexivity.
  - reflexivity.
Defined.
